(** * CDP Tools node: accessibility-tree renumbering and locator alignment

    A shallow embedding of [CdpTools.execute], [getAccessibilityTree] and
    [getNodesMap] (the CDP Tools node of n8n-nodes-stagehand), with the
    properties of the marker renumbering pass.

    A JavaScript string is a sequence of UTF-16 code units; the regular
    expression of the node has no [u] flag, so it works on code units.
    Numbers that index strings are modelled by [nat] (positions found by the
    regular expression) and [Z] (the running [offset], which can go below
    zero). *)

From Stdlib Require Import ZArith Lia List Ascii String Decimal DecimalNat.
From stdpp Require Import gmap list.

Local Open Scope Z_scope.

(** ** JavaScript strings *)

Module JS.

Abbreviation code_unit := N.
Abbreviation jsstring := (list N).

(** Literals of the source are written as Rocq characters and strings. *)
Definition ch (a : ascii) : code_unit := N_of_ascii a.

Definition lit (s : string) : jsstring :=
  List.map N_of_ascii (list_ascii_of_string s).

(** [String.prototype.slice(start, end)]: a negative argument counts from
    the end, both are clamped to the string, an empty range gives the empty
    string. *)
Definition clamp (len k : Z) : Z :=
  if k <? 0 then Z.max (len + k) 0 else Z.min k len.

Definition slice (s : jsstring) (start stop : Z) : jsstring :=
  let len := Z.of_nat (length s) in
  let from := clamp len start in
  let to := clamp len stop in
  take (Z.to_nat (Z.max (to - from) 0)) (drop (Z.to_nat from) s).

(** [s.slice(start)]: the second argument is [undefined], which stands for
    the length. *)
Definition slice_from (s : jsstring) (start : Z) : jsstring :=
  slice s start (Z.of_nat (length s)).

(** [Number.prototype.toString] on a non-negative integer (the loop counter
    [j], far below 1e21): its decimal digits, most significant first. *)
Fixpoint units_of_uint (d : Decimal.uint) : jsstring :=
  match d with
  | Nil => []
  | D0 d => 48%N :: units_of_uint d
  | D1 d => 49%N :: units_of_uint d
  | D2 d => 50%N :: units_of_uint d
  | D3 d => 51%N :: units_of_uint d
  | D4 d => 52%N :: units_of_uint d
  | D5 d => 53%N :: units_of_uint d
  | D6 d => 54%N :: units_of_uint d
  | D7 d => 55%N :: units_of_uint d
  | D8 d => 56%N :: units_of_uint d
  | D9 d => 57%N :: units_of_uint d
  end.

Definition number_toString (j : nat) : jsstring :=
  units_of_uint (Nat.to_uint j).

(** [s.split(sep)] for a separator that is not empty: the pieces between
    the occurrences of [sep], found from left to right without overlap.
    [cur] is the piece being read, [skip] what is left of an occurrence. *)
Fixpoint is_prefix (p s : jsstring) : bool :=
  match p, s with
  | [], _ => true
  | a :: p', b :: s' => (a =? b)%N && is_prefix p' s'
  | _ :: _, [] => false
  end.

Fixpoint split_go (sep s cur : jsstring) (skip : nat) : list jsstring :=
  match s with
  | [] => [cur]
  | c :: s' =>
      match skip with
      | S k => split_go sep s' cur k
      | O =>
          if is_prefix sep s
          then cur :: split_go sep s' [] (Nat.pred (length sep))
          else split_go sep s' (cur ++ [c]) O
      end
  end.

Definition split (s sep : jsstring) : list jsstring := split_go sep s [] 0.

(** [s.trim()]: white space and line terminators of the language. *)
Definition is_space (c : code_unit) : bool :=
  existsb (N.eqb c)
    [9; 10; 11; 12; 13; 32; 160; 5760; 8232; 8233; 8239; 8287; 12288;
     65279]%N
  || ((8192 <=? c) && (c <=? 8202))%N.

Fixpoint trim_start (s : jsstring) : jsstring :=
  match s with
  | c :: s' => if is_space c then trim_start s' else s
  | [] => []
  end.

Definition trim (s : jsstring) : jsstring :=
  rev (trim_start (rev (trim_start s))).

End JS.

Import JS.

(** ** Regular expressions

    The fragment of the JavaScript regular expression language that the
    node uses: a literal character, the class [\d], concatenation, the
    greedy quantifiers [?] and [+], and one capturing group. The matcher
    is the backtracking one of the language: [run r st] lists the states
    reachable by matching [r] from [st], in the order in which backtracking
    tries them, so the head of the list is the match the engine reports. *)

Module Regex.

Inductive regex : Type :=
| Chr (c : code_unit)
| Digit
| Seq (r1 r2 : regex)
| Opt (r : regex)
| Plus (r : regex)
| Group (r : regex).

(** What is left of the input, and the text of capture group 1. *)
Record mstate : Type := MState {
  rest : jsstring;
  capture : option jsstring
}.

Definition is_digit (c : code_unit) : bool :=
  ((48 <=? c) && (c <=? 57))%N.

(** Greedy [r*], used after the first iteration of [r+]: as many
    iterations as possible before giving characters back. Past the first
    one an iteration that consumes nothing is not considered, as the
    language specifies, so [fuel] bounded by the length of the input is
    enough. *)
Fixpoint star (m : mstate -> list mstate) (fuel : nat) (st : mstate)
  : list mstate :=
  match fuel with
  | O => [st]
  | S fuel' =>
      flat_map
        (fun st' =>
           if (length (rest st') <? length (rest st))%nat
           then star m fuel' st'
           else [])
        (m st)
      ++ [st]
  end.

Fixpoint run (r : regex) (st : mstate) : list mstate :=
  match r with
  | Chr c =>
      match rest st with
      | c' :: s' => if (c' =? c)%N then [MState s' (capture st)] else []
      | [] => []
      end
  | Digit =>
      match rest st with
      | c' :: s' => if is_digit c' then [MState s' (capture st)] else []
      | [] => []
      end
  | Seq r1 r2 => flat_map (run r2) (run r1 st)
  | Opt r1 => run r1 st ++ [st]
  | Plus r1 => flat_map (star (run r1) (length (rest st))) (run r1 st)
  | Group r1 =>
      List.map
        (fun st' =>
           MState (rest st')
                  (Some (take (length (rest st) - length (rest st'))
                              (rest st))))
        (run r1 st)
  end.

(** One attempt of the matcher at the start of [s]: the number of code
    units matched and the text of group 1. *)
Definition match_here (r : regex) (s : jsstring)
  : option (nat * jsstring) :=
  match run r (MState s None) with
  | st :: _ =>
      Some ((length s - length (rest st))%nat,
            match capture st with Some g => g | None => [] end)
  | [] => None
  end.

End Regex.

Import Regex.

(** ** The node *)

(** [/\[((?:\d+-)?\d+)\] /g] *)
Definition marker_re : regex :=
  Seq (Chr (ch "["))
   (Seq (Group (Seq (Opt (Seq (Plus Digit) (Chr (ch "-")))) (Plus Digit)))
    (Seq (Chr (ch "]")) (Chr (ch " ")))).

(** One element of the iterator of [matchAll]: [match.index], [match[0]]
    and [match[1]]. *)
Record rmatch : Type := RMatch {
  index : nat;
  text : jsstring;
  group1 : jsstring
}.

(** [s.matchAll(re)] for a global [re]. [s] is what is left of the string
    at position [pos]; [skip] is the distance from [pos] to the [lastIndex]
    of the regular expression, so the matcher is tried at every position
    from [lastIndex] on (the end of the string included), and a match
    moves [lastIndex] to its end, or one further when it is empty. *)
Fixpoint scan (re : regex) (s : jsstring) (pos skip : nat) : list rmatch :=
  match skip with
  | S k =>
      match s with
      | [] => []
      | _ :: s' => scan re s' (S pos) k
      end
  | O =>
      match match_here re s with
      | Some (n, g) =>
          RMatch pos (take n s) g ::
          match s with
          | [] => []
          | _ :: s' => scan re s' (S pos) (Nat.pred n)
          end
      | None =>
          match s with
          | [] => []
          | _ :: s' => scan re s' (S pos) O
          end
      end
  end.

(** The iterator of [matchAll] keeps the string it was created on: the
    later assignments to the variable [tree] do not reach it. *)
Definition matchAll (re : regex) (s : jsstring) : list rmatch :=
  scan re s 0 0.

(** [Record<string, string>], read only at keys made of digits and [-],
    none of which [Object.prototype] defines: a lookup is a lookup among
    the own keys, and a missing key reads [undefined], here [None]. *)
Abbreviation nodes_map := (gmap jsstring jsstring).

(** The variables of the loop of [execute]. *)
Record loop_state : Type := LoopState {
  tree : jsstring;
  offset : Z;
  j : nat;
  xpaths : list (option jsstring)
}.

(** [`[${j}] `] *)
Definition replace_text (j : nat) : jsstring :=
  lit "[" ++ number_toString j ++ lit "] ".

(** The arguments of the two calls of [slice] in the body of the loop. *)
Definition before_end (st : loop_state) (m : rmatch) : Z :=
  Z.of_nat (index m) + offset st.

Definition after_start (st : loop_state) (m : rmatch) : Z :=
  Z.of_nat (index m) + Z.of_nat (length (text m)) + offset st.

(** The body of [for (const match of matches)]. *)
Definition step (nodesMap : nodes_map) (st : loop_state) (m : rmatch)
  : loop_state :=
  let before := slice (tree st) 0 (before_end st m) in
  let after := slice_from (tree st) (after_start st m) in
  let replace := replace_text (j st) in
  {| offset :=
       offset st + (Z.of_nat (length replace) - Z.of_nat (length (text m)));
     tree := before ++ replace ++ after;
     xpaths := xpaths st ++ [nodesMap !! group1 m];
     j := S (j st) |}.

(** Lines 51 to 64 of [execute]: the matches are those of the tree as it
    was fetched, the loop rewrites the variable [tree]. *)
Definition renumber (tree0 : jsstring) (nodesMap : nodes_map) : loop_state :=
  fold_left (step nodesMap) (matchAll marker_re tree0)
            {| tree := tree0; offset := 0; j := O; xpaths := [] |}.

(** ** The two fetches

    [await] sequences the calls and a rejected promise is a thrown value,
    so the asynchronous functions are written in an exception monad. *)

(** What can be thrown: a value thrown by the Stagehand library (its
    payload is opaque to the node), or the [TypeError] of a property read
    on [undefined]. *)
Inductive thrown : Type :=
| LibraryError (payload : jsstring)
| TypeError.

Inductive result (A : Type) : Type :=
| Ok (a : A)
| Throw (e : thrown).

Arguments Ok {A} a.
Arguments Throw {A} e.

#[global] Instance result_ret : MRet result := fun _ a => Ok a.

#[global] Instance result_bind : MBind result := fun _ _ k r =>
  match r with
  | Ok a => k a
  | Throw e => Throw e
  end.

(** A Stagehand session as [getAccessibilityTree] opens it. The client it
    is given stores the prompt and throws, and whatever [observe] does
    with that is caught; so of [observe] only the prompt of its last call
    to the client counts, if it came to call it. *)
Record tree_session : Type := TreeSession {
  ts_init : result unit;
  ts_prompt : option jsstring;
  ts_close : result unit
}.

Definition tree_header : jsstring := lit "Accessibility Tree: " ++ [10%N].

Definition getAccessibilityTree (sh : tree_session) : result jsstring :=
  ts_init sh ;;
  (* try { observe('') } catch {} finally { close() } *)
  ts_close sh ;;
  match ts_prompt sh with
  | None => Throw TypeError
  | Some prompt =>
      match split prompt tree_header with
      | _ :: piece :: _ => Ok (trim piece)
      | _ => Throw TypeError
      end
  end.

(** What the client of [getNodesMap] answers, and what [observe] gives
    back. *)
Record element : Type := Element {
  elementId : jsstring;
  description : jsstring;
  method : jsstring;
  arguments : list jsstring
}.

Record observe_result : Type := ObserveResult {
  res_description : jsstring;
  res_selector : jsstring
}.

(** [match[1].includes('-')] *)
Definition includes_hyphen (s : jsstring) : bool :=
  existsb (N.eqb (ch "-")) s.

Definition createChatCompletion (tree0 : jsstring) : list element :=
  List.map
    (fun m => Element (group1 m) (group1 m) [] [])
    (List.filter (fun m => includes_hyphen (group1 m))
                 (matchAll marker_re tree0)).

(** A Stagehand session as [getNodesMap] opens it: [observe] is given the
    elements its client answers with; [close] is called once or twice,
    [ns_close k] is the outcome of call [k]. *)
Record nodes_session : Type := NodesSession {
  ns_init : result unit;
  ns_observe : list element -> result (list observe_result);
  ns_close : nat -> result unit
}.

(** [acc[key] = value] on the accumulator of [reduce], an object made by
    [{}], for a string [value]: the key is created or overwritten, except
    [__proto__], which the setter of [Object.prototype] takes and, the
    value not being an object, ignores. *)
Definition set_key (acc : nodes_map) (key value : jsstring) : nodes_map :=
  if bool_decide (key = lit "__proto__") then acc else <[key := value]> acc.

(** [results.reduce((acc, result) => ..., {})] *)
Definition reduce_results (results : list observe_result) : nodes_map :=
  fold_left (fun acc r => set_key acc (res_description r) (res_selector r))
            results ∅.

Definition getNodesMap (sh : nodes_session) (tree0 : jsstring)
  : result nodes_map :=
  ns_init sh ;;
  match ns_observe sh (createChatCompletion tree0) with
  | Ok results =>
      match ns_close sh 0 with
      | Ok _ =>
          (* return results.reduce(...), then finally *)
          ns_close sh 1 ;;
          Ok (reduce_results results)
      | Throw _ =>
          (* catch {}, then finally, then return {} *)
          ns_close sh 1 ;;
          Ok ∅
      end
  | Throw _ =>
      ns_close sh 0 ;;
      Ok ∅
  end.

(** ** [execute] *)

Module Json.
Record t : Type := Make {
  accessibilityTree : jsstring;
  xpaths : list (option jsstring)
}.
End Json.

(** An input item, with the sessions that the two [new Stagehand] of its
    turn of the loop open on its [url]. *)
Record item : Type := Item {
  for_tree : tree_session;
  for_nodes : nodes_session
}.

Definition execute_item (it : item) : result Json.t :=
  tree0 ← getAccessibilityTree (for_tree it);
  nodesMap ← getNodesMap (for_nodes it) tree0;
  let st := renumber tree0 nodesMap in
  Ok (Json.Make (tree st) (xpaths st)).

Fixpoint execute_loop (items : list item) (results : list Json.t)
  : result (list Json.t) :=
  match items with
  | [] => Ok results
  | it :: items' =>
      r ← execute_item it;
      execute_loop items' (results ++ [r])
  end.

Definition execute (items : list item) : result (list (list Json.t)) :=
  results ← execute_loop items [];
  Ok [results].

(** ** The properties, in the words of the specification *)

(** The marker pattern in the words of the specification: one or more
    digits; an id, which is one or more digits, optionally followed by a
    hyphen and one or more digits; a marker, which is an opening bracket,
    an id, a closing bracket and a space. *)
Definition digits1 (d : jsstring) : Prop :=
  d <> [] /\ forallb is_digit d = true.

Inductive marker_id : jsstring -> Prop :=
| id_bare d : digits1 d -> marker_id d
| id_pair d1 d2 :
    digits1 d1 -> digits1 d2 -> marker_id (d1 ++ ch "-" :: d2).

Definition marker_text (id : jsstring) : jsstring :=
  ch "[" :: id ++ [ch "]"; ch " "].

(** The text outside the matches [ms] of [s], from position [from] on: what
    lies before the first match, between two matches, after the last. *)
Fixpoint outside (s : jsstring) (from : nat) (ms : list rmatch)
  : list jsstring :=
  match ms with
  | [] => [drop from s]
  | m :: ms' =>
      take (index m - from) (drop from s) ::
      outside s (index m + length (text m)) ms'
  end.

(** [gaps] and [marks] in turn, starting and ending with a gap. *)
Fixpoint alternate (gaps marks : list jsstring) : jsstring :=
  match gaps, marks with
  | g :: gaps', w :: marks' => g ++ w ++ alternate gaps' marks'
  | g :: _, [] => g
  | [], _ => []
  end.

(** The slices of the loop stay inside the current string. *)
Fixpoint slices_in_bounds (nodesMap : nodes_map) (ms : list rmatch)
  (st : loop_state) : Prop :=
  match ms with
  | [] => True
  | m :: ms' =>
      (0 <= before_end st m /\ before_end st m <= after_start st m /\
       after_start st m <= Z.of_nat (length (tree st))) /\
      slices_in_bounds nodesMap ms' (step nodesMap st m)
  end.

(** A string has a marker when some substring of it has the form of one. *)
Definition has_marker (s : jsstring) : Prop :=
  exists pre id post, marker_id id /\ s = pre ++ marker_text id ++ post.

(** What the node relies on from [observe]: each result it returns
    describes one of the elements its client answered with, under the
    description the client gave. *)
Definition passes_descriptions (sh : nodes_session) : Prop :=
  forall els results,
    ns_observe sh els = Ok results ->
    forall r, In r results ->
      In (res_description r) (List.map description els).




(** ** Sessions for the examples *)

(** A session for the examples: [observe] answers every element with one
    result under its description, and nothing fails. *)
Definition echo_session : nodes_session :=
  {| ns_init := Ok tt;
     ns_observe := fun els =>
       Ok (List.map
             (fun e => ObserveResult (description e)
                         (lit "xpath=/html[1]/body[1]"))
             els);
     ns_close := fun _ => Ok tt |}.


(** A tree session whose prompt carries the tree [tree0]. *)
Definition prompt_session (tree0 : jsstring) : tree_session :=
  {| ts_init := Ok tt;
     ts_prompt := Some (lit "instruction: " ++ tree_header ++ tree0);
     ts_close := Ok tt |}.

(** A session in which [observe] loses the connection. *)
Definition dropped_session : nodes_session :=
  {| ns_init := Ok tt;
     ns_observe := fun _ => Throw (LibraryError (lit "socket closed"));
     ns_close := fun _ => Ok tt |}.

(** ** Auxiliary definitions for the proofs

    A direct reading of the marker pattern at the head of a string, and a
    string cut into the gaps and the markers that [matchAll] finds. *)

(** The digits at the head of a string, and what follows them. *)
Fixpoint skip_digits (s : jsstring) : jsstring :=
  match s with
  | c :: s' => if is_digit c then skip_digits s' else s
  | [] => []
  end.

Fixpoint take_digits (s : jsstring) : jsstring :=
  match s with
  | c :: s' => if is_digit c then c :: take_digits s' else []
  | [] => []
  end.

Definition starts_digit (s : jsstring) : bool :=
  match s with c :: _ => is_digit c | [] => false end.

(** The states that [\d+] reaches, the longest run first. *)
Fixpoint digit_states (s : jsstring) (cap : option jsstring) : list mstate :=
  match s with
  | c :: s' =>
      if is_digit c then digit_states s' cap ++ [MState s' cap] else []
  | [] => []
  end.

(** After the digits of an id: [] ] and a space. *)
Definition closes (s : jsstring) : bool :=
  match s with
  | a :: b :: _ => (a =? ch "]")%N && (b =? ch " ")%N
  | _ => false
  end.

(** The marker at the head of [s], if there is one: its length and id. *)
Definition marker_at (s : jsstring) : option (nat * jsstring) :=
  match s with
  | c :: t =>
      if (c =? ch "[")%N && starts_digit t then
        let d1 := take_digits t in
        match skip_digits t with
        | h :: t2 =>
            if (h =? ch "-")%N && starts_digit t2 && closes (skip_digits t2)
            then
              let id := d1 ++ ch "-" :: take_digits t2 in
              Some ((length id + 3)%nat, id)
            else if closes (h :: t2) then Some ((length d1 + 3)%nat, d1)
            else None
        | [] => None
        end
      else None
  | [] => None
  end.

(** A gap in front of a marker, and the text after the last marker: no
    position in them starts a marker. *)
Definition clean_gap (gap : jsstring) : Prop :=
  forall k r, (k < length gap)%nat ->
    marker_at (drop k gap ++ ch "[" :: r) = None.

Definition clean_tail (g : jsstring) : Prop :=
  forall k, marker_at (drop k g) = None.

(** A string as a list of gaps, each followed by the id of a marker, and
    a last gap; the matches of such a string; the same gaps with the ids
    [j], [j+1], ... *)
Fixpoint weave (items : list (jsstring * jsstring)) (g : jsstring)
  : jsstring :=
  match items with
  | [] => g
  | (gap, id) :: items' => gap ++ marker_text id ++ weave items' g
  end.

Fixpoint matches_at (pos : nat) (items : list (jsstring * jsstring))
  : list rmatch :=
  match items with
  | [] => []
  | (gap, id) :: items' =>
      RMatch (pos + length gap) (marker_text id) id ::
      matches_at (pos + length gap + length (marker_text id)) items'
  end.

Fixpoint relabel (j : nat) (items : list (jsstring * jsstring))
  : list (jsstring * jsstring) :=
  match items with
  | [] => []
  | (gap, _) :: items' => (gap, number_toString j) :: relabel (S j) items'
  end.

Definition lexed (items : list (jsstring * jsstring)) (g : jsstring) : Prop :=
  Forall (fun it => clean_gap (fst it) /\ marker_id (snd it)) items /\
  clean_tail g.

(** ** More of the two nodes

    What the other node, Stagehand, computes itself: the instructions it
    reads from its parameter and the schema it builds from a list of
    fields; and the notions in which the further properties of both nodes
    are stated. *)

(** [s.includes(sub)] *)
Fixpoint includes (s sub : jsstring) : bool :=
  is_prefix sub s ||
  match s with
  | [] => false
  | _ :: s' => includes s' sub
  end.

Module StagehandNode.

(** [instructionsRaw.split('\n').map(s => s.trim()).filter(s => s.length > 0)],
    the instructions of the operation [act]. *)
Definition act_instructions (instructionsRaw : jsstring) : list jsstring :=
  List.filter (fun s => (0 <? length s)%nat)
              (List.map trim (split instructionsRaw [10%N])).

(** [instructionsRaw.split('\n')[0]?.trim() || ''], the instruction of the
    operations [extract] and [observe]: an element that is missing and a
    string that is empty both give the empty string. *)
Definition first_instruction (instructionsRaw : jsstring) : jsstring :=
  match split instructionsRaw [10%N] with
  | line :: _ => match trim line with [] => [] | t => t end
  | [] => []
  end.

(** [instructionsRaw.trim()], the instruction of the operation [agent]. *)
Definition agent_instruction (instructionsRaw : jsstring) : jsstring :=
  trim instructionsRaw.

Record Field : Type := MkField {
  fieldName : jsstring;
  fieldType : jsstring;
  optional : bool
}.

(** The schemas of zod that [fieldsToZodSchema] builds for a field. *)
Inductive zod : Type :=
| ZString
| ZNumber
| ZBoolean
| ZArray (element : zod)
| ZObjectPassthrough
| ZAny
| ZOptional (inner : zod).

(** The object [shape]: its own keys and its prototype. An assignment to
    the key [__proto__] of a plain object does not create a key, it sets
    the prototype when the value is an object, as a schema is. With the
    prototype of [{}] every other assignment creates or overwrites its
    key. Under a prototype that is a schema, what an assignment does
    depends on the classes of zod, which the repository does not hold:
    [assign] goes on as under the prototype of [{}], and what is proved
    of the keys of a shape is proved for lists without a field of that
    name, or does not depend on it. *)
Record shape : Type := Shape {
  own : gmap jsstring zod;
  proto : option zod
}.

(** The [switch] on [fieldType]. *)
Definition zType (fieldType : jsstring) : zod :=
  if bool_decide (fieldType = lit "string") then ZString
  else if bool_decide (fieldType = lit "number") then ZNumber
  else if bool_decide (fieldType = lit "boolean") then ZBoolean
  else if bool_decide (fieldType = lit "array") then ZArray ZAny
  else if bool_decide (fieldType = lit "object") then ZObjectPassthrough
  else ZAny.

(** [shape[fieldName] = optional ? zType.optional() : zType] *)
Definition field_schema (f : Field) : zod :=
  if optional f then ZOptional (zType (fieldType f)) else zType (fieldType f).

Definition assign (sh : shape) (key : jsstring) (z : zod) : shape :=
  if bool_decide (key = lit "__proto__")
  then {| own := own sh; proto := Some z |}
  else {| own := <[key := z]> (own sh); proto := proto sh |}.

(** The shape that [fieldsToZodSchema] hands to [z.object]. *)
Definition fieldsToZodSchema (fields : list Field) : shape :=
  fold_left (fun sh f => assign sh (fieldName f) (field_schema f))
            fields {| own := ∅; proto := None |}.

End StagehandNode.

(** The matches [ms] lie in [s] one after the other from position [from]
    on: each is the text of [s] at its index, and starts where the one
    before it ends or later. *)
Fixpoint in_sequence (s : jsstring) (from : nat) (ms : list rmatch) : Prop :=
  match ms with
  | [] => True
  | m :: ms' =>
      (from <= index m)%nat /\
      (index m + length (text m) <= length s)%nat /\
      take (length (text m)) (drop (index m) s) = text m /\
      in_sequence s (index m + length (text m)) ms'
  end.

(** The last of the results of [observe] with description [k]. *)
Definition last_described (k : jsstring) (results : list observe_result)
  : option observe_result :=
  List.find (fun r => bool_decide (res_description r = k)) (rev results).

(** The last of the fields with name [k]. *)
Definition last_named (k : jsstring) (fields : list StagehandNode.Field)
  : option StagehandNode.Field :=
  List.find (fun f => bool_decide (StagehandNode.fieldName f = k))
            (rev fields).

(** White space at an end of a string, and lines put together. *)
Definition starts_space (s : jsstring) : bool :=
  match s with c :: _ => is_space c | [] => false end.

Definition clean_line (s : jsstring) : Prop :=
  s <> [] /\ trim s = s /\ ~ In 10%N s.

Fixpoint join_lines (lines : list jsstring) : jsstring :=
  match lines with
  | [] => []
  | [l] => l
  | l :: lines' => l ++ 10%N :: join_lines lines'
  end.

(** ** The matcher on the marker pattern *)

Lemma star_digit fuel s cap :
  (length s <= fuel)%nat ->
  star (run Digit) fuel (MState s cap) = digit_states s cap ++ [MState s cap].
Proof.
  revert s. induction fuel as [|fuel IH]; intros s Hlen.
  - destruct s; [reflexivity | simpl in Hlen; lia].
  - destruct s as [|c s']; [reflexivity|].
    cbn [star run rest capture digit_states].
    destruct (is_digit c); [|reflexivity].
    cbn [flat_map rest length].
    replace (length s' <? S (length s'))%nat with true
      by (symmetry; apply Nat.ltb_lt; lia).
    rewrite IH by (simpl in Hlen; lia).
    now rewrite app_nil_r.
Qed.

Lemma run_plus_digit s cap :
  run (Plus Digit) (MState s cap) = digit_states s cap.
Proof.
  destruct s as [|c s']; [reflexivity|].
  cbn [run rest capture digit_states].
  destruct (is_digit c); [|reflexivity].
  cbn [flat_map]. rewrite app_nil_r. apply star_digit.
  cbn [length]. lia.
Qed.

Lemma take_skip_digits s : take_digits s ++ skip_digits s = s.
Proof.
  induction s as [|c s IH]; [reflexivity|]. simpl.
  destruct (is_digit c); simpl; congruence.
Qed.

(** Backtracking over a run of digits: a continuation that fails in front
    of a digit only succeeds after the whole run. *)
Lemma flat_map_digit_states {B} (f : mstate -> list B) s cap :
  (forall st, starts_digit (rest st) = true -> f st = []) ->
  flat_map f (digit_states s cap) =
  if starts_digit s then f (MState (skip_digits s) cap) else [].
Proof.
  intros Hf. induction s as [|c s IH]; [reflexivity|].
  cbn [digit_states starts_digit skip_digits].
  destruct (is_digit c) eqn:Ec; [|reflexivity].
  rewrite flat_map_app, IH. cbn [flat_map]. rewrite app_nil_r.
  destruct (starts_digit s) eqn:Es.
  - rewrite (Hf (MState s cap)) by exact Es. apply app_nil_r.
  - destruct s as [|c' s']; [reflexivity|].
    simpl in Es. simpl. now rewrite Es.
Qed.

Lemma run_seq r1 r2 st : run (Seq r1 r2) st = flat_map (run r2) (run r1 st).
Proof. reflexivity. Qed.

Lemma run_opt r st : run (Opt r) st = run r st ++ [st].
Proof. reflexivity. Qed.

Lemma run_group r st :
  run (Group r) st =
  List.map
    (fun st' =>
       MState (rest st')
              (Some (take (length (rest st) - length (rest st')) (rest st))))
    (run r st).
Proof. reflexivity. Qed.

Lemma run_chr c s cap :
  run (Chr c) (MState s cap) =
  match s with
  | c' :: s' => if (c' =? c)%N then [MState s' cap] else []
  | [] => []
  end.
Proof. reflexivity. Qed.

Lemma run_close s cap :
  run (Seq (Chr (ch "]")) (Chr (ch " "))) (MState s cap) =
  if closes s then [MState (drop 2 s) cap] else [].
Proof.
  rewrite run_seq, run_chr.
  destruct s as [|a [|b s]]; cbn [closes flat_map]; try reflexivity.
  - destruct (a =? ch "]")%N; reflexivity.
  - destruct (a =? ch "]")%N; [|reflexivity].
    cbn [flat_map andb]. rewrite run_chr, app_nil_r.
    destruct (b =? ch " ")%N; reflexivity.
Qed.

Lemma closes_not_digit s : starts_digit s = true -> closes s = false.
Proof.
  destruct s as [|a [|b s]]; try reflexivity. cbn [starts_digit closes].
  intros H. destruct (N.eqb_spec a (ch "]")) as [->|]; [discriminate H | reflexivity].
Qed.

Lemma run_chr_not_digit c st :
  is_digit c = false -> starts_digit (rest st) = true -> run (Chr c) st = [].
Proof.
  destruct st as [[|c' s'] cap]; [reflexivity|]. rewrite run_chr.
  cbn [rest starts_digit]. intros Hc Hd.
  destruct (N.eqb_spec c' c) as [->|]; [congruence | reflexivity].
Qed.

Lemma flat_map_one {A B} (f : A -> list B) x : flat_map f [x] = f x.
Proof. apply app_nil_r. Qed.

Lemma match_here_marker s : match_here marker_re s = marker_at s.
Proof.
  unfold match_here, marker_re.
  destruct s as [|c t]; [reflexivity|].
  rewrite run_seq, run_chr. cbn [marker_at].
  destruct (c =? ch "[")%N; [|reflexivity].
  cbn [flat_map andb]. rewrite app_nil_r.
  rewrite run_seq, run_group, run_seq, run_opt, run_seq.
  rewrite flat_map_concat_map, map_map, <- flat_map_concat_map.
  rewrite run_plus_digit.
  rewrite (flat_map_digit_states (run (Chr (ch "-"))))
    by (intros st; now apply run_chr_not_digit).
  set (F := fun x : mstate => run _ _).
  assert (HF : forall st, starts_digit (rest st) = true -> F st = []).
  { intros st Hst. unfold F. rewrite run_close.
    now rewrite (closes_not_digit _ Hst). }
  rewrite !flat_map_app. cbn [flat_map]. rewrite app_nil_r.
  rewrite run_plus_digit, (flat_map_digit_states F) by exact HF.
  destruct (starts_digit t) eqn:Ht; [|reflexivity].
  rewrite run_chr.
  destruct (skip_digits t) as [|h t2] eqn:Hskip.
  { cbn [flat_map app]. unfold F. now rewrite run_close. }
  assert (Ht2 : t = take_digits t ++ h :: t2).
  { now rewrite <- Hskip, take_skip_digits. }
  assert (Hclose2 : forall r : jsstring, closes r = true ->
            length r = S (S (length (drop 2 r)))).
  { intros [|a [|b r]] Hr; try discriminate Hr. cbn [drop length].
    now rewrite drop_0. }
  assert (HFr : forall r, F (MState r None) =
            if closes r
            then [MState (drop 2 r) (Some (take (length t - length r) t))]
            else []).
  { intros r. unfold F. now rewrite run_close. }
  destruct (N.eqb_spec h (ch "-")) as [->|Hh]; cbn [andb].
  - rewrite flat_map_one, run_plus_digit.
    rewrite (flat_map_digit_states F) by exact HF.
    rewrite (HFr (_ :: t2)).
    assert (Hcl : closes (ch "-" :: t2) = false) by now destruct t2.
    rewrite Hcl, app_nil_r. clear Hcl.
    destruct (starts_digit t2); [|reflexivity].
    rewrite HFr. destruct (closes (skip_digits t2)) eqn:Hc; [|reflexivity].
    cbn [rest capture]. apply Hclose2 in Hc.
    assert (Hlen : length t =
              (length (take_digits t) + S (length (take_digits t2)
                 + length (skip_digits t2)))%nat).
    { rewrite Ht2 at 1. rewrite length_app. cbn [length].
      now rewrite <- (take_skip_digits t2) at 1; rewrite length_app. }
    f_equal. f_equal.
    + rewrite length_app. cbn [length]. lia.
    + rewrite Ht2 at 2. rewrite <- (take_skip_digits t2) at 2.
      replace (length t - length (skip_digits t2))%nat
        with (length (take_digits t ++ ch "-" :: take_digits t2)).
      * change (take_digits t ++ ch "-" :: take_digits t2 ++ skip_digits t2)
          with (take_digits t ++ (ch "-" :: take_digits t2) ++ skip_digits t2).
        now rewrite app_assoc, take_app_length.
      * rewrite length_app. cbn [length]. lia.
  - cbn [flat_map app]. rewrite HFr.
    destruct (closes (h :: t2)) eqn:Hc; [|reflexivity].
    cbn [rest capture]. apply Hclose2 in Hc.
    assert (Hlen : length t =
              (length (take_digits t) + length (h :: t2))%nat).
    { rewrite Ht2 at 1. now rewrite length_app. }
    f_equal. f_equal.
    + cbn [length] in *. lia.
    + replace (length t - length (h :: t2))%nat
        with (length (take_digits t)) by lia.
      rewrite Ht2 at 2. now rewrite take_app_length.
Qed.

Lemma digits_split d r :
  forallb is_digit d = true -> starts_digit r = false ->
  take_digits (d ++ r) = d /\ skip_digits (d ++ r) = r.
Proof.
  intros Hd Hr. induction d as [|c d IH].
  - destruct r as [|c r]; [easy|]. cbn in Hr |- *. now rewrite Hr.
  - cbn in Hd. apply andb_prop in Hd as [Hc Hd].
    cbn [app take_digits skip_digits]. rewrite Hc.
    destruct (IH Hd) as [-> ->]. easy.
Qed.

Lemma take_digits_digits s : forallb is_digit (take_digits s) = true.
Proof.
  induction s as [|c s IH]; [reflexivity|]. cbn [take_digits].
  destruct (is_digit c) eqn:E; [|reflexivity]. cbn. now rewrite E.
Qed.

Lemma take_digits_nonempty s : starts_digit s = true -> take_digits s <> [].
Proof. destruct s as [|c s]; [easy|]. cbn. now intros ->. Qed.

Lemma digits1_starts d r : digits1 d -> starts_digit (d ++ r) = true.
Proof.
  intros [Hne Hd]. destruct d as [|c d]; [easy|].
  cbn in Hd |- *. now apply andb_prop in Hd as [-> _].
Qed.

Lemma closes_inv s :
  closes s = true -> exists r, s = ch "]" :: ch " " :: r.
Proof.
  destruct s as [|a [|b r]]; try easy. cbn [closes]. intros H.
  apply andb_prop in H as [Ha Hb].
  apply N.eqb_eq in Ha, Hb. subst. now exists r.
Qed.

Lemma marker_at_text id r :
  marker_id id ->
  marker_at (marker_text id ++ r) = Some (length (marker_text id), id).
Proof.
  assert (Hlen : forall i : jsstring,
            length (marker_text i) = (length i + 3)%nat).
  { intros i. unfold marker_text. cbn [length]. rewrite length_app.
    cbn [length]. lia. }
  intros Hid. rewrite Hlen. unfold marker_text.
  destruct Hid as [d Hd | d1 d2 Hd1 Hd2].
  - cbn [app marker_at]. rewrite <- app_assoc.
    rewrite (digits1_starts _ _ Hd). rewrite N.eqb_refl. cbn [andb].
    destruct (digits_split d ([ch "]"; ch " "] ++ r)) as [-> ->];
      [apply Hd | reflexivity |].
    reflexivity.
  - cbn [app marker_at]. rewrite <- !app_assoc.
    rewrite (digits1_starts _ _ Hd1). rewrite N.eqb_refl. cbn [andb].
    destruct (digits_split d1 ((ch "-" :: d2) ++ [ch "]"; ch " "] ++ r))
      as [-> ->]; [apply Hd1 | reflexivity |].
    cbn [app]. rewrite N.eqb_refl. cbn [andb].
    rewrite (digits1_starts _ _ Hd2). cbn [andb].
    destruct (digits_split d2 (ch "]" :: ch " " :: r)) as [-> ->];
      [apply Hd2 | reflexivity |].
    reflexivity.
Qed.

Lemma marker_at_inv s n id :
  marker_at s = Some (n, id) ->
  marker_id id /\ n = length (marker_text id) /\
  exists r, s = marker_text id ++ r.
Proof.
  assert (Hlen : forall i : jsstring,
            length (marker_text i) = (length i + 3)%nat).
  { intros i. unfold marker_text. cbn [length]. rewrite length_app.
    cbn [length]. lia. }
  destruct s as [|c t]; [easy|]. cbn [marker_at].
  destruct (N.eqb_spec c (ch "[")) as [->|]; [|easy]. cbn [andb].
  destruct (starts_digit t) eqn:Ht; [|easy].
  assert (Hd1 : digits1 (take_digits t)).
  { split; [now apply take_digits_nonempty | apply take_digits_digits]. }
  pose proof (take_skip_digits t) as Hts.
  destruct (skip_digits t) as [|h t2] eqn:Hskip; [easy|].
  destruct ((h =? ch "-")%N && starts_digit t2 && closes (skip_digits t2))
    eqn:Hpair.
  - intros [= <- <-].
    apply andb_prop in Hpair as [Hpair Hc].
    apply andb_prop in Hpair as [Hh Ht2]. apply N.eqb_eq in Hh. subst h.
    apply closes_inv in Hc as [r Hr].
    assert (Hd2 : digits1 (take_digits t2)).
    { split; [now apply take_digits_nonempty | apply take_digits_digits]. }
    split; [now constructor|]. split; [now rewrite Hlen|].
    exists r. unfold marker_text. cbn [app]. f_equal.
    etransitivity; [symmetry; exact Hts|].
    rewrite <- (take_skip_digits t2) at 1. rewrite Hr.
    rewrite <- !app_assoc. reflexivity.
  - destruct (closes (h :: t2)) eqn:Hc; [|easy].
    intros [= <- <-]. apply closes_inv in Hc as [r Hr].
    split; [now constructor|]. split; [now rewrite Hlen|].
    exists r. unfold marker_text. cbn [app]. f_equal.
    etransitivity; [symmetry; exact Hts|].
    rewrite Hr, <- app_assoc. reflexivity.
Qed.

Lemma scan_skip re s pos k :
  (k <= length s)%nat -> scan re s pos k = scan re (drop k s) (pos + k) 0.
Proof.
  revert pos k. induction s as [|c s IH]; intros pos k Hk.
  - cbn [length] in Hk. replace k with O by lia. cbn [drop].
    now rewrite Nat.add_0_r.
  - destruct k as [|k].
    + now rewrite drop_0, Nat.add_0_r.
    + cbn [scan drop]. cbn [length] in Hk. rewrite IH by lia.
      f_equal. lia.
Qed.

Lemma scan_miss c s pos :
  marker_at (c :: s) = None ->
  scan marker_re (c :: s) pos 0 = scan marker_re s (S pos) 0.
Proof. intros H. cbn [scan]. now rewrite match_here_marker, H. Qed.

Lemma length_marker_text id :
  length (marker_text id) = (length id + 3)%nat.
Proof. unfold marker_text. cbn [length]. rewrite length_app. cbn [length]. lia. Qed.

Lemma scan_hit id r pos :
  marker_id id ->
  scan marker_re (marker_text id ++ r) pos 0 =
  RMatch pos (marker_text id) id ::
  scan marker_re r (pos + length (marker_text id)) 0.
Proof.
  intros Hid. pose proof (marker_at_text id r Hid) as Hm.
  pose proof (length_marker_text id) as Hlen.
  remember (marker_text id) as w eqn:Hw.
  destruct w as [|c w]; [cbn [length] in Hlen; lia|].
  cbn [app scan]. cbn [app] in Hm. rewrite match_here_marker, Hm.
  f_equal.
  - f_equal. change (c :: w ++ r) with ((c :: w) ++ r).
    now rewrite take_app_length.
  - cbn [length Nat.pred]. rewrite scan_skip by (rewrite length_app; lia).
    rewrite drop_app_length. f_equal. lia.
Qed.

Lemma digits_no_bracket d :
  forallb is_digit d = true -> ~ In (ch "[") d.
Proof.
  induction d as [|c d IH]; [easy|]. cbn [forallb In]. intros H.
  apply andb_prop in H as [Hc Hd]. intros [->|Hin]; [discriminate Hc|].
  now apply IH.
Qed.

Lemma marker_inner id : marker_id id -> ~ In (ch "[") (id ++ [ch "]"; ch " "]).
Proof.
  intros Hid Hin. apply in_app_or in Hin as [Hin|Hin].
  - destruct Hid as [d [_ Hd] | d1 d2 [_ Hd1] [_ Hd2]].
    + now apply (digits_no_bracket d).
    + apply in_app_or in Hin as [Hin|[Hin|Hin]].
      * now apply (digits_no_bracket d1).
      * discriminate Hin.
      * now apply (digits_no_bracket d2).
  - destruct Hin as [H|[H|[]]]; discriminate H.
Qed.

(** A marker holds one bracket, its first character: a later bracket of
    the string lies after the marker. *)
Lemma marker_prefix id r u r' :
  marker_id id -> marker_text id ++ r = u ++ ch "[" :: r' ->
  u = [] \/ exists l, u = marker_text id ++ l /\ r = l ++ ch "[" :: r'.
Proof.
  intros Hid Heq. apply app_eq_app in Heq as [l [[Hw Hl]|[Hu Hr]]].
  - destruct l as [|x l].
    + right. exists []. rewrite app_nil_r in Hw. cbn [app] in Hl.
      now rewrite app_nil_r, Hw.
    + cbn [app] in Hl. assert (x = ch "[") as -> by congruence.
      destruct u as [|c u]; [now left|]. exfalso.
      unfold marker_text in Hw. cbn [app] in Hw.
      assert (Hw' : id ++ [ch "]"; ch " "] = u ++ ch "[" :: l) by congruence.
      apply (marker_inner id Hid). rewrite Hw'. apply in_or_app. right. now left.
  - right. now exists l.
Qed.

Lemma marker_at_local u r r' :
  u <> [] -> marker_at (u ++ ch "[" :: r) = None ->
  marker_at (u ++ ch "[" :: r') = None.
Proof.
  intros Hu Hnone.
  destruct (marker_at (u ++ ch "[" :: r')) as [[n id]|] eqn:Hm; [|reflexivity].
  apply marker_at_inv in Hm as (Hid & _ & r0 & Heq).
  symmetry in Heq.
  apply (marker_prefix _ _ _ _ Hid) in Heq as [->|(l & -> & _)]; [easy|].
  rewrite <- app_assoc, marker_at_text in Hnone by exact Hid. discriminate.
Qed.

Lemma marker_scan_ind (P : jsstring -> Prop) :
  P [] ->
  (forall c s, marker_at (c :: s) = None -> P s -> P (c :: s)) ->
  (forall id r, marker_id id -> P r -> P (marker_text id ++ r)) ->
  forall s, P s.
Proof.
  intros Hnil Hmiss Hhit s.
  remember (length s) as n eqn:Hn. revert s Hn.
  induction n as [n IH] using lt_wf_ind. intros s Hn.
  destruct s as [|c s]; [exact Hnil|].
  destruct (marker_at (c :: s)) as [[k id]|] eqn:Hm.
  - apply marker_at_inv in Hm as (Hid & _ & r & Heq). rewrite Heq.
    apply Hhit; [exact Hid|]. apply (IH (length r)); [|reflexivity].
    rewrite Hn, Heq, length_app, length_marker_text. lia.
  - apply Hmiss; [exact Hm|]. apply (IH (length s)); [|reflexivity].
    rewrite Hn. cbn [length]. lia.
Qed.

Lemma lex_exists s :
  exists items g, lexed items g /\ s = weave items g.
Proof.
  induction s as [|c s Hm IH|id r Hid IH] using marker_scan_ind.
  - exists [], []. split; [|reflexivity]. split; [constructor|].
    intros k. now rewrite drop_nil.
  - destruct IH as (items & g & [Hit Hg] & ->).
    destruct items as [|[gap id] items].
    + exists [], (c :: g). split; [|reflexivity]. split; [constructor|].
      intros [|k]; [exact Hm | apply Hg].
    + exists ((c :: gap, id) :: items), g. split; [|reflexivity].
      inversion Hit as [|? ? [Hgap Hid] Hit']; subst.
      split; [|exact Hg]. constructor; [|exact Hit']. split; [|exact Hid].
      cbn [fst] in *. intros [|k] r Hk.
      * cbn [drop]. change ((c :: gap) ++ ch "[" :: r) with ((c :: gap) ++ ch "[" :: r).
        eapply (marker_at_local (c :: gap)); [easy|]. exact Hm.
      * cbn [drop]. apply Hgap. cbn [length] in Hk. lia.
  - destruct IH as (items & g & [Hit Hg] & ->).
    exists (([], id) :: items), g. split; [|reflexivity].
    split; [|exact Hg]. constructor; [|exact Hit]. split; [|exact Hid].
    intros k r Hk. cbn [fst length] in Hk. lia.
Qed.

Lemma scan_gap gap r pos :
  clean_gap gap ->
  scan marker_re (gap ++ ch "[" :: r) pos 0 =
  scan marker_re (ch "[" :: r) (pos + length gap) 0.
Proof.
  revert pos. induction gap as [|c gap IH]; intros pos Hgap.
  - cbn [app length]. now rewrite Nat.add_0_r.
  - cbn [app]. rewrite scan_miss by (apply (Hgap O r); cbn [length]; lia).
    rewrite IH.
    + f_equal. cbn [length]. lia.
    + intros k r' Hk. apply (Hgap (S k) r'). cbn [length]. lia.
Qed.

Lemma scan_tail g pos : clean_tail g -> scan marker_re g pos 0 = [].
Proof.
  revert pos. induction g as [|c g IH]; intros pos Hg; [reflexivity|].
  rewrite scan_miss by apply (Hg O). apply IH.
  intros k. apply (Hg (S k)).
Qed.

Lemma scan_weave items g pos :
  lexed items g -> scan marker_re (weave items g) pos 0 = matches_at pos items.
Proof.
  intros [Hit Hg]. revert pos.
  induction Hit as [|[gap id] items [Hgap Hid] _ IH]; intros pos.
  - now apply scan_tail.
  - cbn [weave matches_at fst snd] in *.
    change (marker_text id ++ weave items g)
      with (ch "[" :: (id ++ [ch "]"; ch " "]) ++ weave items g).
    rewrite scan_gap by exact Hgap.
    change (ch "[" :: (id ++ [ch "]"; ch " "]) ++ weave items g)
      with (marker_text id ++ weave items g).
    rewrite scan_hit by exact Hid. now rewrite IH.
Qed.

Lemma slice_prefix (a b : jsstring) :
  slice (a ++ b) 0 (Z.of_nat (length a)) = a.
Proof.
  unfold slice, clamp. rewrite length_app.
  replace (0 <? 0) with false by reflexivity.
  replace (Z.of_nat (length a) <? 0) with false by (symmetry; apply Z.ltb_ge; lia).
  rewrite Z.min_l by lia. rewrite Z.min_l by lia.
  rewrite Z.max_l by lia. cbn [Z.to_nat]. rewrite drop_0.
  rewrite Z.sub_0_r, Nat2Z.id. apply take_app_length.
Qed.

Lemma slice_from_suffix (a b : jsstring) :
  slice_from (a ++ b) (Z.of_nat (length a)) = b.
Proof.
  unfold slice_from, slice, clamp. rewrite length_app.
  replace (Z.of_nat (length a) <? 0) with false by (symmetry; apply Z.ltb_ge; lia).
  replace (Z.of_nat (length a + length b) <? 0) with false
    by (symmetry; apply Z.ltb_ge; lia).
  rewrite Z.min_l by lia. rewrite Z.min_l by lia.
  rewrite Nat2Z.id, drop_app_length.
  apply take_ge. lia.
Qed.

Lemma replace_text_marker j : replace_text j = marker_text (number_toString j).
Proof. reflexivity. Qed.

Lemma units_digits d : forallb is_digit (units_of_uint d) = true.
Proof. induction d; cbn [units_of_uint forallb]; try reflexivity; exact IHd. Qed.

Lemma to_uint_not_nil j : Nat.to_uint j <> Nil.
Proof.
  intros H. pose proof (DecimalNat.Unsigned.of_to j) as Hj.
  rewrite H in Hj. cbn in Hj. subst j. discriminate H.
Qed.

Lemma number_toString_digits j : digits1 (number_toString j).
Proof.
  split; [|apply units_digits]. unfold number_toString.
  pose proof (to_uint_not_nil j). now destruct (Nat.to_uint j).
Qed.

Lemma number_toString_id j : marker_id (number_toString j).
Proof. constructor. apply number_toString_digits. Qed.

Lemma lexed_relabel items g j : lexed items g -> lexed (relabel j items) g.
Proof.
  intros [Hit Hg]. split; [|exact Hg]. revert j.
  induction Hit as [|[gap id] items [Hgap _] _ IH]; intros j;
    cbn [relabel]; constructor.
  - split; [exact Hgap | apply number_toString_id].
  - apply IH.
Qed.

Lemma relabel_relabel j items : relabel j (relabel j items) = relabel j items.
Proof.
  revert j. induction items as [|[gap id] items IH]; intros j; [reflexivity|].
  cbn [relabel]. now rewrite IH.
Qed.

Lemma length_relabel j items : length (relabel j items) = length items.
Proof.
  revert j. induction items as [|[gap id] items IH]; intros j; [reflexivity|].
  cbn [relabel length]. now rewrite IH.
Qed.

Lemma map_fst_relabel j items : List.map fst (relabel j items) = List.map fst items.
Proof.
  revert j. induction items as [|[gap id] items IH]; intros j; [reflexivity|].
  cbn [relabel List.map fst]. now rewrite IH.
Qed.

Lemma length_matches_at pos items : length (matches_at pos items) = length items.
Proof.
  revert pos. induction items as [|[gap id] items IH]; intros pos; [reflexivity|].
  cbn [matches_at length]. now rewrite IH.
Qed.

Lemma text_matches_at pos items :
  List.map text (matches_at pos items) = List.map (fun it => marker_text (snd it)) items.
Proof.
  revert pos. induction items as [|[gap id] items IH]; intros pos; [reflexivity|].
  cbn [matches_at List.map text snd]. now rewrite IH.
Qed.

(** The loop on a lexed string: the invariant is that the current tree is
    the output written so far, [P], followed by the part of the original
    string that is still to be read, and that [offset] is the difference of
    the lengths of [P] and of the original text it stands for. *)
Lemma loop_items nodesMap items g :
  forall (P : jsstring) pos st,
    tree st = P ++ weave items g ->
    offset st = Z.of_nat (length P) - Z.of_nat pos ->
    fold_left (step nodesMap) (matches_at pos items) st =
      {| tree := P ++ weave (relabel (j st) items) g;
         offset := Z.of_nat (length (P ++ weave (relabel (j st) items) g))
                   - Z.of_nat (pos + length (weave items g));
         j := (j st + length items)%nat;
         xpaths := xpaths st ++ List.map (fun it => nodesMap !! snd it) items |}
    /\ slices_in_bounds nodesMap (matches_at pos items) st.
Proof.
  induction items as [|[gap id] items IH]; intros P pos st Htree Hoff.
  - cbn [matches_at fold_left weave relabel length List.map slices_in_bounds].
    split; [|exact I]. destruct st as [t o jj xs]. cbn [tree offset j xpaths] in *.
    subst. rewrite app_nil_r, Nat.add_0_r. f_equal.
    rewrite !length_app. lia.
  - cbn [matches_at fold_left weave relabel slices_in_bounds].
    set (m := RMatch (pos + length gap) (marker_text id) id).
    assert (Hbe : before_end st m = Z.of_nat (length (P ++ gap))).
    { unfold before_end. cbn [index m]. rewrite Hoff, length_app. lia. }
    assert (Haf : after_start st m =
                  Z.of_nat (length ((P ++ gap) ++ marker_text id))).
    { unfold after_start. cbn [index text m]. rewrite Hoff, !length_app. lia. }
    assert (Htree' : tree st = ((P ++ gap) ++ marker_text id) ++ weave items g).
    { rewrite Htree. cbn [weave]. now rewrite <- !app_assoc. }
    assert (Hstep : step nodesMap st m =
              {| tree := (P ++ gap ++ replace_text (j st)) ++ weave items g;
                 offset := Z.of_nat (length (P ++ gap ++ replace_text (j st)))
                           - Z.of_nat (pos + length gap
                                       + length (marker_text id));
                 j := S (j st);
                 xpaths := xpaths st ++ [nodesMap !! id] |}).
    { unfold step. rewrite Hbe, Haf. f_equal.
      - rewrite Htree' at 1. rewrite <- (app_assoc (P ++ gap)), slice_prefix.
        rewrite Htree', slice_from_suffix. now rewrite <- !app_assoc.
      - cbn [text m]. rewrite Hoff, !length_app. lia. }
    destruct (IH (P ++ gap ++ replace_text (j st))
                 (pos + length gap + length (marker_text id))%nat
                 (step nodesMap st m)) as [Hfold Hbounds].
    { now rewrite Hstep. }
    { now rewrite Hstep. }
    split.
    + rewrite Hfold, Hstep. cbn [tree offset j xpaths].
      rewrite <- !app_assoc. cbn [List.map snd app length].
      rewrite <- replace_text_marker. f_equal.
      * rewrite !length_app. lia.
      * lia.
    + split; [|exact Hbounds]. rewrite Hbe, Haf, Htree', !length_app. lia.
Qed.

Lemma outside_weave items g :
  forall (P s : jsstring) from,
    s = P ++ weave items g -> from = length P ->
    outside s from (matches_at from items) = List.map fst items ++ [g].
Proof.
  induction items as [|[gap id] items IH]; intros P s from -> ->.
  - cbn [matches_at outside weave List.map app]. now rewrite drop_app_length.
  - cbn [matches_at outside weave List.map app fst index text].
    rewrite drop_app_length.
    replace (length P + length gap - length P)%nat with (length gap) by lia.
    rewrite take_app_length. f_equal.
    apply (IH ((P ++ gap) ++ marker_text id)).
    + now rewrite <- !app_assoc.
    + rewrite !length_app. lia.
Qed.

Lemma alternate_weave items g :
  alternate (List.map fst items ++ [g])
             (List.map (fun it => marker_text (snd it)) items) =
  weave items g.
Proof.
  induction items as [|[gap id] items IH]; [reflexivity|].
  cbn [List.map app alternate weave fst snd]. now rewrite IH.
Qed.

(** ** What [matchAll] finds *)

Lemma scan_sound s :
  forall pos m,
    In m (scan marker_re s pos 0) ->
    marker_id (group1 m) /\ text m = marker_text (group1 m) /\
    exists pre post,
      s = pre ++ text m ++ post /\ index m = (pos + length pre)%nat.
Proof.
  induction s as [|c s Hm IH|id r Hid IH] using marker_scan_ind;
    intros pos m Hin.
  - destruct Hin.
  - rewrite scan_miss in Hin by exact Hm.
    destruct (IH _ _ Hin) as (H1 & H2 & pre & post & -> & Hidx).
    split; [exact H1|]. split; [exact H2|].
    exists (c :: pre), post. split; [reflexivity|]. cbn [length]. lia.
  - rewrite scan_hit in Hin by exact Hid. destruct Hin as [<-|Hin].
    + cbn [group1 text index]. split; [exact Hid|]. split; [reflexivity|].
      exists [], r. split; [reflexivity|]. cbn [length]. lia.
    + destruct (IH _ _ Hin) as (H1 & H2 & pre & post & -> & Hidx).
      split; [exact H1|]. split; [exact H2|].
      exists (marker_text id ++ pre), post. split.
      * now rewrite <- app_assoc.
      * rewrite length_app. lia.
Qed.

Lemma scan_complete s :
  forall pos pre id post,
    marker_id id -> s = pre ++ marker_text id ++ post ->
    In (RMatch (pos + length pre) (marker_text id) id)
       (scan marker_re s pos 0).
Proof.
  induction s as [|c s Hm IH|id0 r Hid0 IH] using marker_scan_ind;
    intros pos pre id post Hid Heq.
  - apply (f_equal length) in Heq.
    rewrite !length_app, length_marker_text in Heq. cbn [length] in Heq. lia.
  - destruct pre as [|c' pre].
    + cbn [app] in Heq. rewrite Heq, marker_at_text in Hm by exact Hid.
      discriminate Hm.
    + rewrite scan_miss by exact Hm. cbn [app] in Heq.
      assert (Hs : s = pre ++ marker_text id ++ post) by congruence.
      replace (pos + length (c' :: pre))%nat with (S pos + length pre)%nat
        by (cbn [length]; lia).
      now apply (IH (S pos) pre id post).
  - rewrite scan_hit by exact Hid0.
    pose proof Heq as Heq'.
    change (marker_text id ++ post)
      with (ch "[" :: (id ++ [ch "]"; ch " "]) ++ post) in Heq'.
    apply (marker_prefix _ _ _ _ Hid0) in Heq' as [->|(l & -> & Hr)].
    + left. cbn [app] in Heq.
      pose proof (marker_at_text id0 r Hid0) as H0.
      rewrite Heq, marker_at_text in H0 by exact Hid.
      cbn [length]. rewrite Nat.add_0_r. congruence.
    + right. rewrite length_app, Nat.add_assoc.
      apply (IH _ l id post Hid). exact Hr.
Qed.

Lemma has_marker_matchAll s : has_marker s <-> matchAll marker_re s <> [].
Proof.
  split.
  - intros (pre & id & post & Hid & Heq) Hnil.
    pose proof (scan_complete s O pre id post Hid Heq) as Hin.
    unfold matchAll in Hnil. rewrite Hnil in Hin. destruct Hin.
  - unfold matchAll. destruct (scan marker_re s 0 0) as [|m ms] eqn:Hscan;
      [easy|]. intros _.
    destruct (scan_sound s O m) as (Hid & Htext & pre & post & Heq & _).
    { rewrite Hscan. now left. }
    exists pre, (group1 m), post. split; [exact Hid|]. now rewrite <- Htext.
Qed.

Section Pass.

Variable nodesMap : nodes_map.

(** The whole pass on a lexed string. *)
Lemma renumber_weave items g :
  lexed items g ->
  matchAll marker_re (weave items g) = matches_at 0 items /\
  renumber (weave items g) nodesMap =
    {| tree := weave (relabel 0 items) g;
       offset := Z.of_nat (length (weave (relabel 0 items) g))
                 - Z.of_nat (length (weave items g));
       j := length items;
       xpaths := List.map (fun it => nodesMap !! snd it) items |} /\
  slices_in_bounds nodesMap (matchAll marker_re (weave items g))
    {| tree := weave items g; offset := 0; j := O; xpaths := [] |}.
Proof.
  intros Hlex. unfold renumber, matchAll.
  rewrite (scan_weave items g O Hlex). split; [reflexivity|].
  destruct (loop_items nodesMap items g [] O
              {| tree := weave items g; offset := 0; j := O; xpaths := [] |})
    as [Hfold Hb]; [reflexivity | reflexivity |].
  split; [|exact Hb]. rewrite Hfold. reflexivity.
Qed.

Lemma xpaths_fold ms :
  forall st,
    xpaths (fold_left (step nodesMap) ms st) =
    xpaths st ++ List.map (fun m => nodesMap !! group1 m) ms.
Proof.
  induction ms as [|m ms IH]; intros st.
  - cbn [fold_left List.map]. now rewrite app_nil_r.
  - cbn [fold_left List.map]. rewrite IH. cbn [step xpaths].
    now rewrite <- app_assoc.
Qed.

End Pass.

Lemma units_of_uint_inj d d' : units_of_uint d = units_of_uint d' -> d = d'.
Proof.
  revert d'. induction d; intros d' H; destruct d'; cbn [units_of_uint] in H;
    try reflexivity; try discriminate H;
    injection H as H; f_equal; now apply IHd.
Qed.

Lemma replace_text_inj j k : replace_text j = replace_text k -> j = k.
Proof.
  rewrite !replace_text_marker. unfold marker_text. intros H.
  assert (H' : number_toString j ++ [ch "]"; ch " "] =
               number_toString k ++ [ch "]"; ch " "]) by congruence.
  apply app_inv_tail in H'. apply units_of_uint_inj in H'.
  now apply DecimalNat.Unsigned.to_uint_inj.
Qed.

(** ** The renumbering pass *)

Lemma execute_item_ok it s nodesMap :
  getAccessibilityTree (for_tree it) = Ok s ->
  getNodesMap (for_nodes it) s = Ok nodesMap ->
  execute_item it =
  Ok (Json.Make (tree (renumber s nodesMap)) (xpaths (renumber s nodesMap))).
Proof.
  intros Ht Hn. unfold execute_item. rewrite Ht. cbn [mbind result_bind].
  now rewrite Hn.
Qed.

(** Cut [s] into its gaps and markers and run the pass on them. *)
Ltac lex_pass s nodesMap items g Hlex Hms :=
  destruct (lex_exists s) as (items & g & Hlex & ->);
  destruct (renumber_weave nodesMap items g Hlex) as (Hms & -> & ?);
  cbn [tree offset j xpaths].

Lemma texts_relabel k items :
  List.map (fun it => marker_text (snd it)) (relabel k items) =
  List.map replace_text (seq k (length items)).
Proof.
  revert k. induction items as [|[gap id] items IH]; intros k; [reflexivity|].
  cbn [relabel List.map snd length seq]. now rewrite IH.
Qed.

Lemma matchAll_weave items g :
  lexed items g -> matchAll marker_re (weave items g) = matches_at 0 items.
Proof. intros Hlex. apply (scan_weave items g O Hlex). Qed.

Lemma outside_matchAll items g :
  lexed items g ->
  outside (weave items g) 0 (matchAll marker_re (weave items g)) =
  List.map fst items ++ [g].
Proof.
  intros Hlex. rewrite matchAll_weave by exact Hlex.
  now apply (outside_weave items g []).
Qed.

(** The pass on the trees of the specification: ids of one, two and four
    characters, a map with and without the hyphenated id, and a tree with
    eleven markers, where the last replacement is longer than the marker
    it replaces. *)
Example renumber_mixed_lengths :
  tree (renumber (lit "a [3] b [42] c [7-15] d [x] e") ∅) =
  lit "a [0] b [1] c [2] d [x] e".
Proof. vm_compute. reflexivity. Qed.

Example renumber_aligned :
  let t := lit "[5] apple [9-2] banana" in
  let r1 := renumber t {[ lit "5" := lit "loc-A" ]} in
  let r2 := renumber t (<[ lit "9-2" := lit "loc-B" ]> {[ lit "5" := lit "loc-A" ]}) in
  tree r1 = lit "[0] apple [1] banana" /\
  xpaths r1 = [Some (lit "loc-A"); None] /\
  xpaths r2 = [Some (lit "loc-A"); Some (lit "loc-B")].
Proof. vm_compute. repeat split; reflexivity. Qed.

Example renumber_growing :
  let r := renumber (lit "[1] [1] [1] [1] [1] [1] [1] [1] [1] [1] [1] z") ∅ in
  tree r = lit "[0] [1] [2] [3] [4] [5] [6] [7] [8] [9] [10] z" /\
  offset r = 1.
Proof. vm_compute. split; reflexivity. Qed.


(** C3, preservation of the text outside the markers. The input is its
    pieces of text outside the markers and its markers in turn; the pieces
    of text outside the markers of the output are the same pieces, one by
    one, whatever the lengths of the ids replaced; and the offset that the
    loop ends with is the difference of the lengths of output and input. *)
Theorem text_outside_markers_preserved (s : jsstring) (nodesMap : nodes_map) :
  let ms := matchAll marker_re s in
  let r := renumber s nodesMap in
  s = alternate (outside s 0 ms) (List.map text ms) /\
  outside (tree r) 0 (matchAll marker_re (tree r)) = outside s 0 ms /\
  offset r = Z.of_nat (length (tree r)) - Z.of_nat (length s).
Proof.
  cbv zeta. lex_pass s nodesMap items g Hlex Hms.
  rewrite (outside_matchAll items g Hlex).
  pose proof (lexed_relabel items g O Hlex) as Hlex'.
  split; [|split].
  - rewrite Hms, text_matches_at. symmetry. apply alternate_weave.
  - rewrite outside_matchAll by exact Hlex'. now rewrite map_fst_relabel.
  - reflexivity.
Qed.

(** C2, alignment of the locators. The locator sequence has one entry per
    marker, and its i-th entry is what the map holds at the original id of
    the i-th marker: that value when the id is a key, [undefined] (here
    [None]) when it is not. *)
Theorem locators_aligned (s : jsstring) (nodesMap : nodes_map) :
  let ms := matchAll marker_re s in
  let xs := xpaths (renumber s nodesMap) in
  xs = List.map (fun m => nodesMap !! group1 m) ms /\
  length xs = length ms /\
  forall i m, nth_error ms i = Some m ->
    nth_error xs i = Some (nodesMap !! group1 m).
Proof.
  cbv zeta. unfold renumber. rewrite xpaths_fold. cbn [xpaths app].
  split; [reflexivity|]. split; [apply length_map|].
  intros i m Hm.
  exact (map_nth_error (fun m => nodesMap !! group1 m) i _ Hm).
Qed.

(** C6, identity on an input without markers. When no substring of the
    input has the form of a marker, the output tree is the input and the
    locator sequence is empty; and an item whose fetches give such a tree
    produces that record, not a failure. *)
Theorem marker_free_identity (s : jsstring) (nodesMap : nodes_map) :
  ~ has_marker s ->
  tree (renumber s nodesMap) = s /\
  xpaths (renumber s nodesMap) = [] /\
  forall it,
    getAccessibilityTree (for_tree it) = Ok s ->
    getNodesMap (for_nodes it) s = Ok nodesMap ->
    execute_item it = Ok (Json.Make s []).
Proof.
  intros Hno.
  assert (Hnil : matchAll marker_re s = []).
  { destruct (matchAll marker_re s) eqn:E; [reflexivity|].
    exfalso. apply Hno, has_marker_matchAll. now rewrite E. }
  assert (Hr : renumber s nodesMap =
               {| tree := s; offset := 0; j := O; xpaths := [] |}).
  { unfold renumber. now rewrite Hnil. }
  rewrite Hr. split; [reflexivity|]. split; [reflexivity|].
  intros it Ht Hn. now rewrite (execute_item_ok it s nodesMap Ht Hn), Hr.
Qed.

(** Bracketed text that is not a marker: a letter, no space after the
    bracket, a hyphen without digits, two hyphens. *)
Lemma marker_free_identity_witness :
  let s := lit "[a] [12]x [3-] [1-2-3] y" in
  tree (renumber s ∅) = s /\ xpaths (renumber s ∅) = [].
Proof.
  cbv zeta.
  assert (Hno : ~ has_marker (lit "[a] [12]x [3-] [1-2-3] y")).
  { intros H. apply has_marker_matchAll in H. apply H. vm_compute. reflexivity. }
  destruct (marker_free_identity _ ∅ Hno) as (H1 & H2 & _).
  split; assumption.
Defined.

(** The empty tree. *)
Example renumber_empty (nodesMap : nodes_map) :
  tree (renumber [] nodesMap) = [] /\ xpaths (renumber [] nodesMap) = [].
Proof. split; reflexivity. Qed.

(** C7, duplicate ids. The tree ["[5] x [5] y"] with the map
    [{"5": "loc-Z"}] gives the tree ["[0] x [1] y"] and the locators
    [["loc-Z", "loc-Z"]]. In general nothing is merged: there is one
    locator per occurrence of a marker, looked up at the id of that
    occurrence, and the markers of the output are as many as those of the
    input and pairwise different. *)
Theorem duplicate_ids_independent :
  (let r := renumber (lit "[5] x [5] y") {[ lit "5" := lit "loc-Z" ]} in
   tree r = lit "[0] x [1] y" /\
   xpaths r = [Some (lit "loc-Z"); Some (lit "loc-Z")]) /\
  (forall s nodesMap,
     let ms := matchAll marker_re s in
     let r := renumber s nodesMap in
     length (xpaths r) = length ms /\
     xpaths r = List.map (fun m => nodesMap !! group1 m) ms /\
     length (matchAll marker_re (tree r)) = length ms /\
     List.NoDup (List.map text (matchAll marker_re (tree r)))).
Proof.
  split; [vm_compute; split; reflexivity|].
  intros s nodesMap. cbv zeta.
  assert (Hx : xpaths (renumber s nodesMap) =
               List.map (fun m => nodesMap !! group1 m) (matchAll marker_re s)).
  { unfold renumber. now rewrite xpaths_fold. }
  split; [rewrite Hx; apply length_map|]. split; [exact Hx|].
  clear Hx. lex_pass s nodesMap items g Hlex Hms.
  pose proof (lexed_relabel items g O Hlex) as Hlex'.
  rewrite (matchAll_weave _ _ Hlex'), Hms, !length_matches_at.
  split; [apply length_relabel|].
  rewrite text_matches_at, texts_relabel.
  apply Finite.Injective_map_NoDup; [|apply seq_NoDup].
  intros a b. apply replace_text_inj.
Qed.

(** C8, exactness of the pattern. [matchAll] reports a match at position
    [p] with text [w] and group [id] exactly when [w] occurs in the string
    at [p] and is an opening bracket, an id made of one or more digits,
    optionally followed by a hyphen and one or more digits, a closing
    bracket and a space. Bracketed text of another form, or without the
    space, is no match. *)
Theorem marker_pattern_exact (s : jsstring) (p : nat) (w id : jsstring) :
  In (RMatch p w id) (matchAll marker_re s) <->
  marker_id id /\ w = marker_text id /\
  exists pre post, s = pre ++ w ++ post /\ length pre = p.
Proof.
  split.
  - intros Hin. apply scan_sound in Hin.
    cbn [group1 text index] in Hin.
    destruct Hin as (Hid & Hw & pre & post & Hs & Hp).
    split; [exact Hid|]. split; [exact Hw|]. exists pre, post.
    split; [exact Hs|]. cbn in Hp. lia.
  - intros (Hid & -> & pre & post & Hs & <-).
    apply (scan_complete s O pre id post Hid Hs).
Qed.

(** C9, idempotence of the structure. Running the pass on its own output
    tree, with any map, gives that tree again and a locator sequence as
    long as the first one. *)
Theorem renumber_idempotent (s : jsstring) (nodesMap nodesMap' : nodes_map) :
  let out := tree (renumber s nodesMap) in
  tree (renumber out nodesMap') = out /\
  length (xpaths (renumber out nodesMap')) = length (matchAll marker_re s).
Proof.
  cbv zeta. lex_pass s nodesMap items g Hlex Hms.
  pose proof (lexed_relabel items g O Hlex) as Hlex'.
  destruct (renumber_weave nodesMap' _ g Hlex') as (_ & -> & _).
  cbn [tree xpaths]. rewrite relabel_relabel. split; [reflexivity|].
  now rewrite length_map, length_relabel, Hms, length_matches_at.
Qed.

(** C10, totality of the pass. For every string and every map the pass is
    a total function: at every turn of the loop the two positions given to
    [slice] lie, in order, between 0 and the length of the current tree;
    the loop makes one turn per marker and ends with a tree whose length is
    that of the input plus the final offset; every slot of the locator
    sequence is the lookup of an id, [None] when the key is missing, so
    with the empty map every slot is [None]. Hence an item whose fetches
    succeed always gets its record. *)
Theorem renumber_total (s : jsstring) (nodesMap : nodes_map) :
  let ms := matchAll marker_re s in
  let r := renumber s nodesMap in
  (forall it,
     getAccessibilityTree (for_tree it) = Ok s ->
     getNodesMap (for_nodes it) s = Ok nodesMap ->
     execute_item it = Ok (Json.Make (tree r) (xpaths r))) /\
  slices_in_bounds nodesMap ms
    {| tree := s; offset := 0; j := O; xpaths := [] |} /\
  length (tree r) = Z.to_nat (Z.of_nat (length s) + offset r) /\
  j r = length ms /\
  xpaths r = List.map (fun m => nodesMap !! group1 m) ms /\
  xpaths (renumber s ∅) = List.map (fun _ => None) ms.
Proof.
  cbv zeta. split; [intros it; apply execute_item_ok|].
  assert (Hx : forall nm, xpaths (renumber s nm) =
               List.map (fun m => nm !! group1 m) (matchAll marker_re s)).
  { intros nm. unfold renumber. now rewrite xpaths_fold. }
  rewrite !Hx. clear Hx. lex_pass s nodesMap items g Hlex Hms.
  split; [assumption|]. split; [lia|].
  split; [now rewrite Hms, length_matches_at|]. split; [reflexivity|].
  apply map_ext. intros m. apply lookup_empty.
Qed.

(** ** The locator map *)

Lemma reduce_results_snoc results r :
  reduce_results (results ++ [r]) =
  set_key (reduce_results results) (res_description r) (res_selector r).
Proof. unfold reduce_results. now rewrite fold_left_app. Qed.

Lemma reduce_results_lookup results k sel :
  reduce_results results !! k = Some sel ->
  exists res, In res results /\ res_description res = k /\
              res_selector res = sel.
Proof.
  induction results as [|r results IH] using rev_ind; intros H.
  - unfold reduce_results in H. cbn [fold_left] in H.
    rewrite lookup_empty in H. discriminate H.
  - assert (Hold : reduce_results results !! k = Some sel ->
              exists res, In res (results ++ [r]) /\ res_description res = k /\
                          res_selector res = sel).
    { intros H'. destruct (IH H') as (res & Hin & Hd & Hs).
      exists res. split; [apply in_or_app; now left | now split]. }
    rewrite reduce_results_snoc in H. unfold set_key in H.
    destruct (bool_decide (res_description r = lit "__proto__"));
      [now apply Hold|].
    destruct (decide (res_description r = k)) as [Heq|Hne].
    + rewrite Heq, lookup_insert_eq in H. injection H as H.
      exists r. split; [apply in_or_app; right; now left | now split].
    + rewrite lookup_insert_ne in H by exact Hne. now apply Hold.
Qed.


Lemma getNodesMap_cases sh tree0 nm :
  getNodesMap sh tree0 = Ok nm ->
  nm = ∅ \/
  exists results,
    ns_observe sh (createChatCompletion tree0) = Ok results /\
    nm = reduce_results results.
Proof.
  unfold getNodesMap.
  destruct (ns_init sh) as [[]|e0]; cbn; [|discriminate].
  destruct (ns_observe sh (createChatCompletion tree0)) as [results|e1].
  - destruct (ns_close sh 0) as [[]|e2];
      (destruct (ns_close sh 1) as [[]|e3]; cbn; [|discriminate]);
      intros [= <-]; [right; now exists results | now left].
  - destruct (ns_close sh 0) as [[]|e2]; cbn; [|discriminate].
    intros [= <-]. now left.
Qed.

Lemma digits_no_hyphen d : forallb is_digit d = true -> includes_hyphen d = false.
Proof.
  unfold includes_hyphen.
  induction d as [|c d IH]; [reflexivity|]. cbn [forallb existsb].
  intros H. apply andb_prop in H as [Hc Hd]. rewrite (IH Hd), orb_false_r.
  apply N.eqb_neq. intros <-. discriminate Hc.
Qed.








(** ** Failures of the fetches *)

Lemma execute_loop_app before :
  forall acc rs l,
    execute_loop before acc = Ok rs ->
    execute_loop (before ++ l) acc = execute_loop l rs.
Proof.
  induction before as [|it before IH]; intros acc rs l H.
  - cbn in H. now injection H as ->.
  - cbn [app execute_loop] in *.
    destruct (execute_item it) as [r|e]; cbn in *; [|discriminate H].
    now apply IH.
Qed.



Lemma observe_failure_swallowed sh tree0 e :
  ns_init sh = Ok tt ->
  ns_observe sh (createChatCompletion tree0) = Throw e ->
  ns_close sh 0 = Ok tt ->
  getNodesMap sh tree0 = Ok ∅.
Proof. unfold getNodesMap. now intros -> -> ->. Qed.




(** * Further properties of the two nodes *)

(** ** The matches and the pass *)

Lemma in_sequence_weave items g :
  forall (P s : jsstring) from,
    s = P ++ weave items g -> from = length P ->
    in_sequence s from (matches_at from items).
Proof.
  induction items as [|[gap id] items IH]; intros P s from -> ->;
    cbn [matches_at in_sequence weave index text]; [exact I|].
  split; [lia|]. split; [rewrite !length_app; lia|]. split.
  - rewrite <- length_app, app_assoc, drop_app_length.
    now rewrite take_app_length.
  - apply (IH ((P ++ gap) ++ marker_text id)).
    + now rewrite <- !app_assoc.
    + rewrite !length_app. lia.
Qed.

(** X1. The matches of the marker pattern lie in the string one after the
    other: each is the text of the string at its index and ends inside the
    string, and the next one starts where it ends or later. The slices of
    the loop of [execute] rely on it. *)
Theorem matches_in_sequence (s : jsstring) :
  in_sequence s 0 (matchAll marker_re s).
Proof.
  destruct (lex_exists s) as (items & g & Hlex & ->).
  rewrite (matchAll_weave items g Hlex).
  now apply (in_sequence_weave items g []).
Qed.

Lemma group1_matches_at pos items :
  List.map group1 (matches_at pos items) = List.map snd items.
Proof.
  revert pos. induction items as [|[gap id] items IH]; intros pos; [reflexivity|].
  cbn [matches_at List.map group1 snd]. now rewrite IH.
Qed.

Lemma weave_relabel_same items g :
  forall k,
    Forall (fun it => clean_gap (fst it) /\ marker_id (snd it)) items ->
    weave (relabel k items) g = weave items g <->
    List.map snd items = List.map number_toString (seq k (length items)).
Proof.
  induction items as [|[gap id] items IH]; intros k Hit; [easy|].
  inversion Hit as [|? ? [_ Hid] Hit']; subst. cbn [snd] in Hid.
  cbn [relabel weave List.map snd length seq]. split.
  - intros H. apply app_inv_head in H.
    pose proof (marker_at_text (number_toString k)
                  (weave (relabel (S k) items) g) (number_toString_id k)) as H1.
    rewrite H, marker_at_text in H1 by exact Hid.
    assert (Hk : id = number_toString k) by congruence. subst id.
    apply app_inv_head in H. f_equal. now apply IH.
  - intros H. assert (Hk : id = number_toString k) by congruence.
    assert (Ht : List.map snd items =
                 List.map number_toString (seq (S k) (length items)))
      by congruence.
    subst id. do 2 f_equal. now apply IH.
Qed.

(** X2. The pass leaves a tree as it is exactly when the ids of its
    markers already are 0, 1, 2, ... in decimal, in this order. *)
Theorem renumber_fixed_point (s : jsstring) (nodesMap : nodes_map) :
  tree (renumber s nodesMap) = s <->
  List.map group1 (matchAll marker_re s) =
  List.map number_toString (seq 0 (length (matchAll marker_re s))).
Proof.
  lex_pass s nodesMap items g Hlex Hms.
  rewrite Hms, group1_matches_at, length_matches_at.
  apply weave_relabel_same. apply Hlex.
Qed.

Lemma number_toString_no_hyphen k : includes_hyphen (number_toString k) = false.
Proof. apply digits_no_hyphen, units_digits. Qed.

Lemma filter_hyphen_relabel pos k items :
  List.filter (fun m => includes_hyphen (group1 m))
              (matches_at pos (relabel k items)) = [].
Proof.
  revert pos k. induction items as [|[gap id] items IH]; intros pos k;
    [reflexivity|].
  cbn [relabel matches_at List.filter group1].
  now rewrite number_toString_no_hyphen, IH.
Qed.

(** X3. No id of a renumbered tree has a hyphen: on such a tree the
    client of [getNodesMap] offers [observe] no element, and the map that
    [getNodesMap] returns, [observe] keeping to what it is offered, is
    empty. *)
Theorem renumbered_tree_offers_no_element (s : jsstring) (nodesMap : nodes_map) :
  let out := tree (renumber s nodesMap) in
  createChatCompletion out = [] /\
  forall sh nm,
    passes_descriptions sh -> getNodesMap sh out = Ok nm -> nm = ∅.
Proof.
  cbv zeta. lex_pass s nodesMap items g Hlex Hms.
  pose proof (lexed_relabel items g O Hlex) as Hlex'.
  assert (Hnone : createChatCompletion (weave (relabel 0 items) g) = []).
  { unfold createChatCompletion.
    now rewrite (matchAll_weave _ _ Hlex'), filter_hyphen_relabel. }
  split; [exact Hnone|].
  intros sh nm Hpass Hget.
  apply getNodesMap_cases in Hget as [->|(results & Hobs & ->)]; [reflexivity|].
  rewrite Hnone in Hobs. destruct results as [|r results]; [reflexivity|].
  destruct (Hpass _ _ Hobs r); now left.
Qed.

(** X4. The map has no key [__proto__]. At any other description it
    holds the selector of the last result of [observe] with that
    description, and nothing when no result has it. *)
Theorem reduce_results_last_wins (results : list observe_result) (k : jsstring) :
  reduce_results results !! k =
  if bool_decide (k = lit "__proto__") then None
  else res_selector <$> last_described k results.
Proof.
  unfold last_described.
  induction results as [|r results IH] using rev_ind.
  - unfold reduce_results. cbn [fold_left rev List.find].
    rewrite lookup_empty. now destruct (bool_decide (k = lit "__proto__")).
  - rewrite reduce_results_snoc, rev_app_distr. cbn [rev app List.find].
    unfold set_key. destruct (decide (res_description r = k)) as [Heq|Hne].
    + rewrite (bool_decide_eq_true_2 (res_description r = k)) by exact Heq.
      subst k. destruct (bool_decide (res_description r = lit "__proto__"))
        eqn:Hp.
      * rewrite IH. reflexivity.
      * now rewrite lookup_insert_eq.
    + rewrite (bool_decide_eq_false_2 (res_description r = k)) by exact Hne.
      destruct (bool_decide (res_description r = lit "__proto__"));
        [exact IH|].
      now rewrite lookup_insert_ne.
Qed.

(** X5. Every element that the client of [getNodesMap] answers with
    stands for a marker of the tree whose id is digits, a hyphen and
    digits; the id is both its [elementId] and its [description], its
    [method] is empty and it has no [arguments]. *)
Theorem offered_elements_are_pairs (tree0 : jsstring) :
  Forall
    (fun e =>
       description e = elementId e /\ method e = [] /\ arguments e = [] /\
       (exists m, In m (matchAll marker_re tree0) /\ group1 m = elementId e) /\
       exists d1 d2,
         digits1 d1 /\ digits1 d2 /\ elementId e = d1 ++ ch "-" :: d2)
    (createChatCompletion tree0).
Proof.
  unfold createChatCompletion. apply List.Forall_forall. intros e He.
  apply in_map_iff in He as (m & <- & Hm).
  apply filter_In in Hm as [Hin Hhyp]. cbn [description elementId method arguments].
  split; [reflexivity|]. split; [reflexivity|]. split; [reflexivity|].
  split; [now exists m|].
  destruct (scan_sound tree0 O m Hin) as (Hid & _).
  destruct Hid as [d [_ Hd] | d1 d2 Hd1 Hd2].
  - rewrite (digits_no_hyphen d Hd) in Hhyp. discriminate Hhyp.
  - now exists d1, d2.
Qed.

(** ** The records of [execute] *)

Lemma execute_item_inv it r :
  execute_item it = Ok r ->
  exists tree0 nm,
    getAccessibilityTree (for_tree it) = Ok tree0 /\
    getNodesMap (for_nodes it) tree0 = Ok nm /\
    r = Json.Make (tree (renumber tree0 nm)) (xpaths (renumber tree0 nm)).
Proof.
  unfold execute_item.
  destruct (getAccessibilityTree (for_tree it)) as [tree0|e] eqn:Ht;
    cbn [mbind result_bind]; [|discriminate].
  destruct (getNodesMap (for_nodes it) tree0) as [nm|e] eqn:Hn;
    cbn [mbind result_bind]; [|discriminate].
  intros [= <-]. exists tree0, nm. repeat split; [exact Hn].
Qed.

(** X6. Every locator of a record that is not [undefined] is the selector
    of a result that [observe] returned in the locator-map fetch, under the
    id of the marker at that place of the fetched tree. *)
Theorem locators_come_from_observe (it : item) (r : Json.t) :
  execute_item it = Ok r ->
  forall i sel,
    nth_error (Json.xpaths r) i = Some (Some sel) ->
    exists tree0 results m res,
      getAccessibilityTree (for_tree it) = Ok tree0 /\
      ns_observe (for_nodes it) (createChatCompletion tree0) = Ok results /\
      nth_error (matchAll marker_re tree0) i = Some m /\
      In res results /\
      res_description res = group1 m /\
      res_selector res = sel.
Proof.
  intros Hex i sel Hnth.
  apply execute_item_inv in Hex as (tree0 & nm & Ht & Hn & ->).
  cbn [Json.xpaths] in Hnth. unfold renumber in Hnth.
  rewrite xpaths_fold in Hnth. cbn [xpaths app] in Hnth.
  rewrite nth_error_map in Hnth.
  destruct (nth_error (matchAll marker_re tree0) i) as [m|] eqn:Hm;
    [|discriminate Hnth].
  cbn in Hnth. injection Hnth as Hlook.
  apply getNodesMap_cases in Hn as [->|(results & Hobs & ->)].
  - rewrite lookup_empty in Hlook. discriminate Hlook.
  - apply reduce_results_lookup in Hlook as (res & Hin & Hd & Hs).
    exists tree0, results, m, res. repeat split; assumption.
Qed.

Lemma locators_come_from_observe_witness :
  exists tree0 results m res,
    getAccessibilityTree (prompt_session (lit "[9-2] banana")) = Ok tree0 /\
    ns_observe echo_session (createChatCompletion tree0) = Ok results /\
    nth_error (matchAll marker_re tree0) 0 = Some m /\
    In res results /\
    res_description res = group1 m /\
    res_selector res = lit "xpath=/html[1]/body[1]".
Proof.
  apply (locators_come_from_observe
           (Item (prompt_session (lit "[9-2] banana")) echo_session)
           (Json.Make (lit "[0] banana")
                      [Some (lit "xpath=/html[1]/body[1]")])
           eq_refl 0%nat (lit "xpath=/html[1]/body[1]") eq_refl).
Defined.

Lemma execute_loop_ok items :
  forall acc rs,
    execute_loop items acc = Ok rs ->
    exists new, rs = acc ++ new /\
      Forall2 (fun it r => execute_item it = Ok r) items new.
Proof.
  induction items as [|it items IH]; intros acc rs H; cbn [execute_loop] in H.
  - injection H as <-. exists []. split; [now rewrite app_nil_r | constructor].
  - destruct (execute_item it) as [r|e] eqn:Hit; cbn [mbind result_bind] in H;
      [|discriminate H].
    apply IH in H as (new & -> & Hall). exists (r :: new). split.
    + now rewrite <- app_assoc.
    + now constructor.
Qed.

(** X7. When [execute] returns, it returns one list, with one record per
    item, in the order of the items, each the record of its item. *)
Theorem execute_one_record_per_item (items : list item)
  (out : list (list Json.t)) :
  execute items = Ok out ->
  exists rs, out = [rs] /\ length rs = length items /\
    Forall2 (fun it r => execute_item it = Ok r) items rs.
Proof.
  unfold execute.
  destruct (execute_loop items []) as [rs|e] eqn:Hloop;
    cbn [mbind result_bind]; [|discriminate].
  intros [= <-]. apply execute_loop_ok in Hloop as (new & -> & Hall).
  exists new. split; [reflexivity|]. split; [|exact Hall].
  symmetry. eapply Forall2_length. exact Hall.
Qed.

Lemma execute_one_record_per_item_witness :
  exists rs,
    [[Json.Make (lit "[0] a") [None]; Json.Make (lit "x") []]] = [rs] /\
    length rs =
    length [Item (prompt_session (lit "[7] a")) echo_session;
            Item (prompt_session (lit "x")) dropped_session] /\
    Forall2 (fun it r => execute_item it = Ok r)
      [Item (prompt_session (lit "[7] a")) echo_session;
       Item (prompt_session (lit "x")) dropped_session] rs.
Proof.
  apply (execute_one_record_per_item
           [Item (prompt_session (lit "[7] a")) echo_session;
            Item (prompt_session (lit "x")) dropped_session]).
  vm_compute. reflexivity.
Defined.

Lemma execute_loop_throw items :
  forall acc e,
    execute_loop items acc = Throw e ->
    exists before it after,
      items = before ++ it :: after /\
      Forall (fun it' => exists r, execute_item it' = Ok r) before /\
      execute_item it = Throw e.
Proof.
  induction items as [|it items IH]; intros acc e H; cbn [execute_loop] in H;
    [discriminate H|].
  destruct (execute_item it) as [r|e'] eqn:Hit; cbn [mbind result_bind] in H.
  - apply IH in H as (before & it' & after & -> & Hb & Hf).
    exists (it :: before), it', after. split; [reflexivity|].
    split; [|exact Hf]. constructor; [now exists r | exact Hb].
  - injection H as ->. exists [], it, items. split; [reflexivity|].
    split; [constructor | exact Hit].
Qed.

Lemma execute_loop_all_ok before :
  forall acc,
    Forall (fun it' => exists r, execute_item it' = Ok r) before ->
    exists rs, execute_loop before acc = Ok rs.
Proof.
  induction before as [|it before IH]; intros acc Hall; cbn [execute_loop].
  - now exists acc.
  - inversion Hall as [|? ? [r Hr] Hall']; subst. rewrite Hr.
    cbn [mbind result_bind]. now apply IH.
Qed.

(** X8. [execute] throws [e] exactly when some item throws [e] and every
    item before it gives a record: the failure is that of the first item
    that fails, and the records made before it are lost. *)
Theorem execute_first_failure (items : list item) (e : thrown) :
  execute items = Throw e <->
  exists before it after,
    items = before ++ it :: after /\
    Forall (fun it' => exists r, execute_item it' = Ok r) before /\
    execute_item it = Throw e.
Proof.
  unfold execute. split.
  - destruct (execute_loop items []) as [rs|e'] eqn:Hloop;
      cbn [mbind result_bind]; [discriminate|].
    intros [= ->]. now apply execute_loop_throw in Hloop.
  - intros (before & it & after & -> & Hb & Hf).
    destruct (execute_loop_all_ok before [] Hb) as [rs Hrs].
    rewrite (execute_loop_app before [] rs (it :: after) Hrs).
    cbn [execute_loop]. now rewrite Hf.
Qed.

(** ** The tree fetch *)

(** *** [trim] *)

Lemma trim_start_starts s : starts_space (trim_start s) = false.
Proof.
  induction s as [|c s IH]; [reflexivity|]. cbn [trim_start].
  destruct (is_space c) eqn:E; [exact IH|]. cbn [starts_space]. exact E.
Qed.

Lemma trim_start_id s : starts_space s = false -> trim_start s = s.
Proof. destruct s as [|c s]; [reflexivity|]. cbn. now intros ->. Qed.

Lemma trim_start_suffix s : exists p, s = p ++ trim_start s.
Proof.
  induction s as [|c s [p IH]]; [now exists []|]. cbn [trim_start].
  destruct (is_space c); [|now exists []].
  exists (c :: p). cbn [app]. now rewrite <- IH.
Qed.

Lemma trim_segment s : exists a b, s = a ++ trim s ++ b.
Proof.
  unfold trim. destruct (trim_start_suffix s) as [p Hp].
  destruct (trim_start_suffix (rev (trim_start s))) as [q Hq].
  exists p, (rev q). rewrite <- rev_app_distr, <- Hq, rev_involutive.
  exact Hp.
Qed.

Lemma trim_ends s :
  starts_space (trim s) = false /\ starts_space (rev (trim s)) = false.
Proof.
  unfold trim. rewrite rev_involutive. split; [|apply trim_start_starts].
  destruct (trim_start_suffix (rev (trim_start s))) as [q Hq].
  destruct (trim_start (rev (trim_start s))) as [|c v] eqn:Hv using rev_ind;
    [reflexivity|].
  rewrite rev_app_distr. cbn [rev app starts_space].
  pose proof (trim_start_starts s) as Hs.
  apply (f_equal (@rev N)) in Hq. rewrite rev_involutive in Hq.
  rewrite !rev_app_distr in Hq. cbn [rev app] in Hq.
  rewrite Hq in Hs. exact Hs.
Qed.

Lemma trim_id s :
  starts_space s = false -> starts_space (rev s) = false -> trim s = s.
Proof.
  intros H1 H2. unfold trim.
  now rewrite (trim_start_id s H1), (trim_start_id _ H2), rev_involutive.
Qed.

Lemma trim_trim s : trim (trim s) = trim s.
Proof. destruct (trim_ends s). now apply trim_id. Qed.

Lemma trim_In x s : In x (trim s) -> In x s.
Proof.
  intros H. destruct (trim_segment s) as (a & b & Hs). rewrite Hs.
  apply in_or_app. right. apply in_or_app. now left.
Qed.

(** *** [split] and [includes] *)

Lemma split_go_nonempty sep s cur skip : split_go sep s cur skip <> [].
Proof.
  revert cur skip. induction s as [|c s IH]; intros cur skip; [easy|].
  cbn [split_go]. destruct skip; [|apply IH].
  destruct (is_prefix sep (c :: s)); [easy | apply IH].
Qed.

Lemma split_go_absent sep s :
  forall cur, includes s sep = false -> split_go sep s cur 0 = [cur ++ s].
Proof.
  induction s as [|c s IH]; intros cur H; cbn [split_go].
  - now rewrite app_nil_r.
  - cbn [includes] in H. apply orb_false_elim in H as [Hp Hi].
    rewrite Hp, IH by exact Hi. now rewrite <- app_assoc.
Qed.

Lemma split_go_present sep s :
  forall cur, sep <> [] -> includes s sep = true ->
    (2 <= length (split_go sep s cur 0))%nat.
Proof.
  induction s as [|c s IH]; intros cur Hsep H.
  - destruct sep; [easy | discriminate H].
  - cbn [split_go]. cbn [includes] in H.
    destruct (is_prefix sep (c :: s)) eqn:Hp.
    + cbn [length].
      pose proof (split_go_nonempty sep s [] (Nat.pred (length sep))) as Hne.
      destruct (split_go sep s [] (Nat.pred (length sep))); [easy|].
      cbn [length]. lia.
    + cbn [orb] in H. now apply IH.
Qed.

Lemma split_go_skip sep x rest :
  forall cur,
    split_go sep (x ++ rest) cur (length x) = split_go sep rest cur 0.
Proof.
  induction x as [|c x IH]; intros cur; [reflexivity|].
  cbn [app length split_go]. apply IH.
Qed.

Lemma is_prefix_app p s : is_prefix p (p ++ s) = true.
Proof.
  induction p as [|a p IH]; [now destruct s|].
  cbn [app is_prefix]. now rewrite N.eqb_refl, IH.
Qed.

Lemma is_prefix_inv p s : is_prefix p s = true -> exists r, s = p ++ r.
Proof.
  revert s. induction p as [|a p IH]; intros s H; [now exists s|].
  destruct s as [|b s]; [discriminate H|]. cbn [is_prefix] in H.
  apply andb_prop in H as [Hab Hp]. apply N.eqb_eq in Hab. subst b.
  destruct (IH s Hp) as [r ->]. now exists r.
Qed.

Lemma split_go_first sep pre body :
  forall cur,
    sep <> [] ->
    (forall k, (k < length pre)%nat ->
       is_prefix sep (drop k (pre ++ sep ++ body)) = false) ->
    split_go sep (pre ++ sep ++ body) cur 0 =
    (cur ++ pre) :: split_go sep body [] 0.
Proof.
  induction pre as [|c pre IH]; intros cur Hsep Hfirst.
  - cbn [app]. rewrite app_nil_r.
    destruct sep as [|a sep]; [easy|]. cbn [app split_go].
    change (a :: sep ++ body) with ((a :: sep) ++ body).
    rewrite is_prefix_app. cbn [length Nat.pred]. now rewrite split_go_skip.
  - pose proof (Hfirst O) as H0. rewrite drop_0 in H0.
    cbn [app] in H0. cbn [app split_go].
    rewrite H0 by (cbn [length]; lia).
    rewrite IH; [now rewrite <- app_assoc | exact Hsep |].
    intros k Hk. apply (Hfirst (S k)). cbn [length]. lia.
Qed.

Lemma includes_drop s sep k :
  includes s sep = false -> is_prefix sep (drop k s) = false.
Proof.
  revert k. induction s as [|c s IH]; intros k H.
  - rewrite drop_nil. cbn [includes] in H. now apply orb_false_elim in H.
  - cbn [includes] in H. apply orb_false_elim in H as [Hp Hi].
    destruct k as [|k]; [exact Hp | now apply IH].
Qed.

Lemma is_prefix_shorter p u r :
  (length p <= length u)%nat -> is_prefix p (u ++ r) = is_prefix p u.
Proof.
  revert u. induction p as [|a p IH]; intros u Hlen; [now destruct u|].
  destruct u as [|b u]; [cbn [length] in Hlen; lia|].
  cbn [app is_prefix]. rewrite IH; [reflexivity|]. cbn [length] in Hlen. lia.
Qed.

(** The header ends with its only line feed, so an occurrence of the
    header cannot begin before another one and end inside it. *)
Lemma header_no_straddle pre rest k :
  includes pre tree_header = false -> (k < length pre)%nat ->
  is_prefix tree_header (drop k (pre ++ tree_header ++ rest)) = false.
Proof.
  intros Hinc Hk. rewrite drop_app_le by lia.
  pose proof (includes_drop pre tree_header k Hinc) as Hu.
  assert (Hlen : (0 < length (drop k pre))%nat) by (rewrite length_drop; lia).
  set (u := drop k pre) in *. clearbody u.
  destruct (le_lt_dec (length tree_header) (length u)) as [Hle|Hlt].
  - now rewrite is_prefix_shorter.
  - destruct (is_prefix tree_header (u ++ tree_header ++ rest)) eqn:Hp;
      [exfalso | reflexivity].
    apply is_prefix_inv in Hp as [r Hr].
    apply (f_equal (fun l => nth_error l 20)) in Hr.
    change (length tree_header) with 21%nat in Hlt.
    rewrite nth_error_app2 in Hr by lia.
    rewrite nth_error_app1 in Hr by (change (length tree_header) with 21%nat; lia).
    rewrite (nth_error_app1 tree_header r) in Hr
      by (change (length tree_header) with 21%nat; lia).
    change (nth_error tree_header 20) with (Some 10%N) in Hr.
    assert (Hin : In 10%N (take 20 tree_header)).
    { apply nth_error_In with (n := (20 - length u)%nat).
      rewrite nth_error_firstn.
      replace (20 - length u <? 20)%nat with true
        by (symmetry; apply Nat.ltb_lt; lia).
      exact Hr. }
    vm_compute in Hin. intuition discriminate.
Qed.

(** *** [getAccessibilityTree] *)

Lemma split_header_once pre body :
  includes pre tree_header = false ->
  includes body tree_header = false ->
  split (pre ++ tree_header ++ body) tree_header = [pre; body].
Proof.
  intros Hpre Hbody. unfold split.
  rewrite split_go_first.
  - now rewrite split_go_absent by exact Hbody.
  - discriminate.
  - intros k Hk. now apply header_no_straddle.
Qed.

(** X9. When the session opens and closes and the captured prompt holds
    the header [Accessibility Tree: ] with its line feed once, the tree is
    the text after the header, trimmed. *)
Theorem tree_fetch_reads_after_header
  (sh : tree_session) (pre body : jsstring) :
  ts_init sh = Ok tt -> ts_close sh = Ok tt ->
  ts_prompt sh = Some (pre ++ tree_header ++ body) ->
  includes pre tree_header = false ->
  includes body tree_header = false ->
  getAccessibilityTree sh = Ok (trim body).
Proof.
  intros Hi Hc Hp Hpre Hbody. unfold getAccessibilityTree.
  rewrite Hi, Hc, Hp. cbn [mbind result_bind].
  now rewrite split_header_once.
Qed.

Lemma tree_fetch_reads_after_header_witness :
  getAccessibilityTree
    (TreeSession (Ok tt)
       (Some (lit "Instruction: find elements" ++ tree_header ++
              [10%N; 32%N] ++ lit "[0-3] button: OK " ++ [10%N]))
       (Ok tt)) =
  Ok (trim ([10%N; 32%N] ++ lit "[0-3] button: OK " ++ [10%N])).
Proof.
  apply (tree_fetch_reads_after_header
           (TreeSession (Ok tt)
              (Some (lit "Instruction: find elements" ++ tree_header ++
                     [10%N; 32%N] ++ lit "[0-3] button: OK " ++ [10%N]))
              (Ok tt))
           (lit "Instruction: find elements")
           ([10%N; 32%N] ++ lit "[0-3] button: OK " ++ [10%N]));
    reflexivity.
Defined.

(** X10. With a session that opens and closes, the tree fetch throws
    exactly when no prompt was captured or the prompt does not hold the
    header, and what it throws is a [TypeError]. *)
Theorem tree_fetch_type_error (sh : tree_session) (e : thrown) :
  ts_init sh = Ok tt -> ts_close sh = Ok tt ->
  getAccessibilityTree sh = Throw e <->
  e = TypeError /\
  (ts_prompt sh = None \/
   exists p, ts_prompt sh = Some p /\ includes p tree_header = false).
Proof.
  intros Hi Hc. unfold getAccessibilityTree.
  rewrite Hi, Hc. cbn [mbind result_bind].
  destruct (ts_prompt sh) as [p|].
  - destruct (includes p tree_header) eqn:Hinc.
    + pose proof (split_go_present tree_header p [] ltac:(discriminate) Hinc)
        as Hlen.
      unfold split. destruct (split_go tree_header p [] 0) as [|a [|b l]];
        cbn [length] in Hlen; try lia.
      split; [discriminate|]. intros [_ [H|(p' & [= <-] & H)]]; congruence.
    + unfold split. rewrite split_go_absent by exact Hinc.
      split.
      * intros [= <-]. split; [reflexivity|]. right. now exists p.
      * now intros [-> _].
  - split.
    + intros [= <-]. split; [reflexivity | now left].
    + now intros [-> _].
Qed.

Lemma tree_fetch_type_error_witness :
  getAccessibilityTree
    (TreeSession (Ok tt) (Some (lit "Accessibility Tree: [1] x")) (Ok tt)) =
  Throw TypeError.
Proof.
  apply (tree_fetch_type_error
           (TreeSession (Ok tt) (Some (lit "Accessibility Tree: [1] x"))
                        (Ok tt))
           TypeError eq_refl eq_refl).
  split; [reflexivity|]. right. eexists. split; reflexivity.
Defined.

(** X11. The tree that the fetch returns is trimmed: it neither starts
    nor ends with white space or a line terminator. *)
Theorem tree_fetch_trimmed (sh : tree_session) (tree0 : jsstring) :
  getAccessibilityTree sh = Ok tree0 ->
  trim tree0 = tree0 /\
  starts_space tree0 = false /\ starts_space (rev tree0) = false.
Proof.
  unfold getAccessibilityTree.
  destruct (ts_init sh) as [[]|]; cbn [mbind result_bind]; [|discriminate].
  destruct (ts_close sh) as [[]|]; cbn [mbind result_bind]; [|discriminate].
  destruct (ts_prompt sh) as [p|]; [|discriminate].
  destruct (split p tree_header) as [|a [|b l]]; try discriminate.
  intros [= <-]. split; [apply trim_trim | apply trim_ends].
Qed.

Lemma tree_fetch_trimmed_witness :
  let t := lit "[5] x" in
  trim t = t /\ starts_space t = false /\ starts_space (rev t) = false.
Proof.
  apply (tree_fetch_trimmed
           (prompt_session ([32%N; 10%N] ++ lit "[5] x" ++ [9%N; 10%N]))).
  reflexivity.
Defined.

(** ** The Stagehand node *)

Module StagehandNodeFacts.
Import StagehandNode.

Lemma split_go_lf_piece s :
  forall cur, ~ In 10%N s ->
    forall rest, split_go [10%N] (s ++ rest) cur 0 =
                 split_go [10%N] rest (cur ++ s) 0.
Proof.
  induction s as [|c s IH]; intros cur Hs rest.
  - now rewrite app_nil_r.
  - cbn [app split_go is_prefix].
    destruct (N.eqb_spec 10 c) as [<-|Hc]; [exfalso; apply Hs; now left|].
    cbn [andb]. rewrite IH, <- app_assoc; [reflexivity|].
    intros Hin. apply Hs. now right.
Qed.

Lemma split_go_lf rest cur :
  split_go [10%N] (10%N :: rest) cur 0 = cur :: split_go [10%N] rest [] 0.
Proof. reflexivity. Qed.

(** The pieces between line feeds hold no line feed, and only characters
    of the string. *)
Lemma split_lf_pieces s :
  forall cur, ~ In 10%N cur ->
    Forall (fun p => ~ In 10%N p /\ forall x, In x p -> In x cur \/ In x s)
           (split_go [10%N] s cur 0).
Proof.
  induction s as [|c s IH]; intros cur Hcur.
  - cbn [split_go]. constructor; [|constructor]. split; [exact Hcur|].
    intros x Hx. now left.
  - cbn [split_go is_prefix]. destruct (N.eqb_spec 10 c) as [<-|Hc]; cbn [andb].
    + constructor.
      * split; [exact Hcur|]. intros x Hx. now left.
      * cbn [length Nat.pred]. eapply List.Forall_impl; [|apply (IH []); easy].
        intros p [Hp Hin]. split; [exact Hp|]. intros x Hx.
        destruct (Hin x Hx) as [[]|H]. right. now right.
    + eapply List.Forall_impl; [|apply (IH (cur ++ [c]))].
      * intros p [Hp Hin]. split; [exact Hp|]. intros x Hx.
        destruct (Hin x Hx) as [H|H].
        -- apply in_app_or in H as [H|[<-|[]]]; [now left|]. right. now left.
        -- right. now right.
      * intros H. apply in_app_or in H as [H|[H|[]]]; [now apply Hcur|].
        now apply Hc.
Qed.

(** X12. Each instruction of the operation [act] is not empty, is
    trimmed and holds no line feed. *)
Theorem act_instructions_clean (instructionsRaw : jsstring) :
  Forall clean_line (act_instructions instructionsRaw).
Proof.
  unfold act_instructions, split. apply List.Forall_forall. intros i Hi.
  apply filter_In in Hi as [Hi Hlen]. apply in_map_iff in Hi as (p & <- & Hp).
  pose proof (split_lf_pieces instructionsRaw [] ltac:(easy)) as Hall.
  rewrite List.Forall_forall in Hall. destruct (Hall p Hp) as [Hlf _].
  split; [|split].
  - intros E. rewrite E in Hlen. discriminate Hlen.
  - apply trim_trim.
  - intros H. apply Hlf. now apply trim_In.
Qed.

Lemma split_join_lines l lines :
  forall cur,
    Forall (fun p => ~ In 10%N p) (l :: lines) ->
    split_go [10%N] (join_lines (l :: lines)) cur 0 = (cur ++ l) :: lines.
Proof.
  revert l. induction lines as [|l' lines IH]; intros l cur Hall.
  - cbn [join_lines]. inversion Hall; subst.
    rewrite <- (app_nil_r l) at 1. now rewrite split_go_lf_piece.
  - inversion Hall as [|? ? Hl Hall']; subst.
    change (join_lines (l :: l' :: lines))
      with (l ++ 10%N :: join_lines (l' :: lines)).
    rewrite split_go_lf_piece by exact Hl. rewrite split_go_lf.
    now rewrite (IH l' [] Hall').
Qed.

(** X13. Instructions that are not empty, trimmed and of one line each,
    written one per line, are read back as they are, in their order. *)
Theorem act_instructions_join (lines : list jsstring) :
  Forall clean_line lines ->
  act_instructions (join_lines lines) = lines.
Proof.
  intros Hall. unfold act_instructions, split.
  destruct lines as [|l lines]; [reflexivity|].
  rewrite split_join_lines.
  - cbn [app]. induction Hall as [|x xs (Hne & Htrim & _) _ IH]; [reflexivity|].
    cbn [List.map List.filter]. rewrite Htrim, IH.
    destruct x; [easy | reflexivity].
  - eapply List.Forall_impl; [|exact Hall]. now intros x (_ & _ & H).
Qed.

Lemma act_instructions_join_witness :
  act_instructions
    (join_lines [lit "Click Accept cookies"; lit "Type hello"]) =
  [lit "Click Accept cookies"; lit "Type hello"].
Proof.
  apply (act_instructions_join
           [lit "Click Accept cookies"; lit "Type hello"]).
  repeat constructor; try discriminate;
    intros H; vm_compute in H; intuition discriminate.
Defined.

Lemma trim_start_blank s : forallb is_space s = true -> trim_start s = [].
Proof.
  induction s as [|c s IH]; [reflexivity|]. cbn [forallb trim_start].
  intros H. apply andb_prop in H as [-> Hs]. now apply IH.
Qed.

Lemma trim_blank s : forallb is_space s = true -> trim s = [].
Proof. intros H. unfold trim. now rewrite (trim_start_blank s H). Qed.

(** X14. A parameter made of white space and line terminators only, the
    empty one included, gives the operation [act] no instruction. *)
Theorem act_instructions_blank (instructionsRaw : jsstring) :
  forallb is_space instructionsRaw = true ->
  act_instructions instructionsRaw = [].
Proof.
  intros Hblank. unfold act_instructions, split.
  pose proof (split_lf_pieces instructionsRaw [] ltac:(easy)) as Hall.
  induction Hall as [|p ps [_ Hp] _ IH]; [reflexivity|].
  cbn [List.map List.filter]. rewrite trim_blank; [exact IH|].
  apply forallb_forall. intros x Hx. destruct (Hp x Hx) as [[]|Hin].
  rewrite forallb_forall in Hblank. now apply Hblank.
Qed.

Lemma act_instructions_blank_witness :
  act_instructions [32%N; 10%N; 9%N; 13%N; 10%N; 160%N] = [].
Proof.
  apply (act_instructions_blank [32%N; 10%N; 9%N; 13%N; 10%N; 160%N]).
  reflexivity.
Defined.

(** X15. The instruction of [extract] and [observe] is the first line of
    the parameter, trimmed: the whole parameter trimmed when it holds no
    line feed, and else the text before the first line feed, trimmed,
    whatever follows it. So it is empty or a clean line; a parameter that
    starts with an empty line gives the empty instruction; and when it is
    not empty it is the first instruction that [act] would read. *)
Theorem first_instruction_first_line (instructionsRaw : jsstring) :
  (forall line,
     ~ In 10%N line ->
     instructionsRaw = line \/
     (exists rest, instructionsRaw = line ++ 10%N :: rest) ->
     first_instruction instructionsRaw = trim line) /\
  (first_instruction instructionsRaw = [] \/
   clean_line (first_instruction instructionsRaw)) /\
  (first_instruction instructionsRaw <> [] ->
   exists rest,
     act_instructions instructionsRaw =
     first_instruction instructionsRaw :: rest).
Proof.
  assert (Hid : forall t : jsstring,
            match t with [] => [] | c :: t' => c :: t' end = t)
    by now intros [|].
  unfold first_instruction, act_instructions, split.
  pose proof (split_lf_pieces instructionsRaw [] ltac:(easy)) as Hall.
  pose proof (split_go_nonempty [10%N] instructionsRaw [] 0) as Hne.
  split; [|split].
  - intros line Hline [->|[rest ->]].
    + rewrite <- (app_nil_r line) at 1.
      rewrite (split_go_lf_piece line [] Hline). cbn [split_go app].
      apply Hid.
    + rewrite (split_go_lf_piece line [] Hline), split_go_lf. apply Hid.
  - destruct (split_go [10%N] instructionsRaw [] 0) as [|p ps]; [easy|].
    cbv beta iota. rewrite Hid.
    destruct (trim p) as [|c t] eqn:Ht; [now left|]. right.
    rewrite <- Ht. inversion Hall as [|? ? [Hlf _] _]; subst.
    split; [now rewrite Ht|]. split; [apply trim_trim|].
    intros H. apply Hlf. now apply trim_In.
  - destruct (split_go [10%N] instructionsRaw [] 0) as [|p ps]; [easy|].
    cbv beta iota. rewrite Hid. intros Hp. cbn [List.map List.filter].
    destruct (trim p); [easy|]. now eexists.
Qed.

Lemma fieldsToZodSchema_snoc fields f :
  fieldsToZodSchema (fields ++ [f]) =
  assign (fieldsToZodSchema fields) (fieldName f) (field_schema f).
Proof. unfold fieldsToZodSchema. now rewrite fold_left_app. Qed.

(** X16. For a list of fields none of which is named [__proto__], the
    prototype of the shape is left as it was, and the shape holds at
    every name the schema of the last field of that name, optional when
    that field is, and nothing when no field has the name. *)
Theorem fields_schema_last_wins (fields : list Field) :
  (forall f, In f fields -> fieldName f <> lit "__proto__") ->
  proto (fieldsToZodSchema fields) = None /\
  forall k,
    own (fieldsToZodSchema fields) !! k = field_schema <$> last_named k fields.
Proof.
  unfold last_named.
  induction fields as [|f fields IH] using rev_ind; intros Hnames.
  - split; [reflexivity|]. intros k. apply lookup_empty.
  - destruct IH as [IHp IHk].
    { intros f' Hf'. apply Hnames, in_or_app. now left. }
    assert (Hf : fieldName f <> lit "__proto__").
    { apply Hnames, in_or_app. right. now left. }
    rewrite fieldsToZodSchema_snoc. unfold assign.
    rewrite (bool_decide_eq_false_2 _ Hf). cbn [own proto].
    split; [exact IHp|]. intros k.
    rewrite rev_app_distr. cbn [rev app List.find].
    destruct (decide (fieldName f = k)) as [Heq|Hne].
    + rewrite (bool_decide_eq_true_2 _ Heq). subst k.
      now rewrite lookup_insert_eq.
    + rewrite (bool_decide_eq_false_2 _ Hne).
      rewrite lookup_insert_ne by exact Hne. apply IHk.
Qed.

Lemma fields_schema_last_wins_witness :
  let fields := [MkField (lit "price") (lit "string") false;
                 MkField (lit "name") (lit "string") false;
                 MkField (lit "price") (lit "number") true] in
  proto (fieldsToZodSchema fields) = None /\
  own (fieldsToZodSchema fields) !! lit "price" = Some (ZOptional ZNumber) /\
  own (fieldsToZodSchema fields) !! lit "title" = None.
Proof.
  cbv zeta.
  destruct (fields_schema_last_wins
              [MkField (lit "price") (lit "string") false;
               MkField (lit "name") (lit "string") false;
               MkField (lit "price") (lit "number") true]) as [Hp Hk].
  - intros f [<-|[<-|[<-|[]]]]; discriminate.
  - split; [exact Hp|]. split; [apply (Hk (lit "price")) | apply (Hk (lit "title"))].
Defined.

(** X17. A field named [__proto__] gives the shape no key: it sets the
    prototype of the shape, to the schema of the last such field. The
    shape has at most as many keys as there are fields. *)
Theorem fields_schema_proto (fields : list Field) :
  own (fieldsToZodSchema fields) !! lit "__proto__" = None /\
  proto (fieldsToZodSchema fields) =
    field_schema <$> last_named (lit "__proto__") fields /\
  (size (own (fieldsToZodSchema fields)) <= length fields)%nat.
Proof.
  unfold last_named.
  induction fields as [|f fields (IH1 & IH2 & IH3)] using rev_ind.
  - split; [apply lookup_empty|]. split; [reflexivity|].
    change (own (fieldsToZodSchema [])) with (∅ : gmap jsstring zod).
    rewrite map_size_empty. cbn [length]. lia.
  - rewrite fieldsToZodSchema_snoc, rev_app_distr, length_app.
    cbn [rev app List.find length]. unfold assign.
    destruct (decide (fieldName f = lit "__proto__")) as [Heq|Hne].
    + rewrite !bool_decide_eq_true_2 by exact Heq. cbn [own proto].
      split; [exact IH1|]. split; [reflexivity | lia].
    + rewrite !bool_decide_eq_false_2 by exact Hne. cbn [own proto].
      split; [now rewrite lookup_insert_ne|]. split; [exact IH2|].
      destruct (own (fieldsToZodSchema fields) !! fieldName f) eqn:Hl.
      * rewrite map_size_insert_Some by eauto. lia.
      * rewrite map_size_insert_None by exact Hl. lia.
Qed.

End StagehandNodeFacts.
